(** * PythonAutocorrect: the keyboard-aware matching engine of [versions/ver1.py]

    A shallow embedding of [are_keys_nearby], [modified_levenshtein_ratio]
    and [autocorrect], and the properties of the similarity ratio and of the
    suggestion ranking.

    Conventions of the embedding.
    - A Python [str] is a [string]; a character [word[i]] is an [ascii];
      [str.lower()] is the ASCII lowercasing of the letters [A]-[Z].  Text
      is ASCII: [lower], [strip], [isdigit] and [int] are those of Python on
      characters below 128 ([isascii]).
    - The keymap ([nearby_keys]) is a [gmap string (list string)]: a dict
      from key strings to lists of neighbour strings, as [load_keymap_conf]
      builds it.
    - An operation that can raise in Python (indexing a string or a list,
      a division) returns [option]; [None] stands for the exception, and the
      code is written in the option monad.
    - Numbers are exact rationals [Q].  Every entry of the table [dp] is an
      integer multiple of 1/2, which Python's ints and binary floats hold
      exactly; [modified_levenshtein_ratio] returns the exact value of the
      last step [1 - dist / max_len], where Python rounds the quotient and
      the difference ([rounded_ratio] has the two roundings, and the bounds
      and the order of the ratio are proved of it as well); the literals
      [0.5] and [0.90] are [1#2] and [9#10].  Comparisons of numbers are
      [Qeq], [Qle], [Qlt].
    - For [load_wordlist], [load_keymap_conf], [yes_no_prompt] and [main]:
      the files are a map from file names to the lines that iterating over
      the open file yields; standard input is the list of the lines still to
      be read, and what is written is a list of events; an exception is a
      value of [exn], in a sum with the result. *)

From Stdlib Require Import QArith Qminmax Qround Lqa Ascii String DecimalString.
From stdpp Require Import gmap strings list sorting.

Local Open Scope string_scope.
Local Open Scope Q_scope.

(** ** Python primitives *)

Module Py.

(** [c.lower()] on one character. *)
Definition lower_char (c : ascii) : ascii :=
  let n := N_of_ascii c in
  if ((65 <=? n) && (n <=? 90))%N then ascii_of_N (n + 32) else c.

(** [s.lower()]. *)
Fixpoint lower (s : string) : string :=
  match s with
  | EmptyString => EmptyString
  | String c s' => String (lower_char c) (lower s')
  end.

(** [range(lo, hi)]. *)
Definition range (lo hi : nat) : list nat := seq lo (hi - lo).

(** [for i in r: s = body(i, s)], where the body may raise. *)
Fixpoint for_each {St : Type} (r : list nat) (body : nat → St → option St)
    (s : St) : option St :=
  match r with
  | [] => Some s
  | i :: r' => s' ← body i s; for_each r' body s'
  end.

(** An int [n] as a number. *)
Definition of_nat (n : nat) : Q := inject_Z (Z.of_nat n).

(** [x / n]: raises [ZeroDivisionError] when [n] is 0. *)
Definition div (x : Q) (n : nat) : option Q :=
  if decide (n = 0%nat) then None else Some (x / of_nat n).

(** [min(x, y, z)]. *)
Definition min3 (x y z : Q) : Q := Qmin (Qmin x y) z.

(** [l[:n]] for an int [n]: a negative [n] counts from the end. *)
Definition slice_to {A : Type} (l : list A) (n : Z) : list A :=
  if (0 <=? n)%Z then take (Z.to_nat n) l
  else take (Z.to_nat (Z.of_nat (length l) + n)) l.

End Py.

(** ** The table [dp], a list of rows *)

(** [[[0] * (len2 + 1) for _ in range(len1 + 1)]] *)
Definition new_table (len1 len2 : nat) : list (list Q) :=
  replicate (len1 + 1) (replicate (len2 + 1) 0).

(** [dp[i][j]] read: [IndexError] out of range. *)
Definition get2 (dp : list (list Q)) (i j : nat) : option Q :=
  row ← dp !! i; row !! j.

(** [dp[i][j] = v]: [IndexError] out of range. *)
Definition set2 (dp : list (list Q)) (i j : nat) (v : Q)
    : option (list (list Q)) :=
  row ← dp !! i;
  if decide (j < length row)%nat then Some (<[i := <[j := v]> row]> dp)
  else None.

(** ** Distance engine *)

(** def are_keys_nearby(c1, c2, nearby_keys) *)
Definition are_keys_nearby (c1 c2 : ascii)
    (nearby_keys : gmap string (list string)) : bool :=
  let c1 := Py.lower (String c1 EmptyString) in
  let c2 := Py.lower (String c2 EmptyString) in
  bool_decide (c2 ∈ default [] (nearby_keys !! c1)).

(** The [if c1 == c2 / elif are_keys_nearby / else] chain that sets [cost]. *)
Definition subst_cost (c1 c2 : ascii)
    (nearby_keys : gmap string (list string)) : Q :=
  if decide (c1 = c2) then 0
  else if are_keys_nearby c1 c2 nearby_keys then 1 # 2
  else 1.

(** The body of the inner loop: the assignment to [dp[i][j]]. *)
Definition fill_cell (word1 word2 : string)
    (nearby_keys : gmap string (list string)) (i j : nat)
    (dp : list (list Q)) : option (list (list Q)) :=
  c1 ← String.get (i - 1) word1;
  c2 ← String.get (j - 1) word2;
  let cost := subst_cost c1 c2 nearby_keys in
  deletion ← get2 dp (i - 1) j;
  insertion ← get2 dp i (j - 1);
  substitution ← get2 dp (i - 1) (j - 1);
  set2 dp i j (Py.min3 (deletion + 1) (insertion + 1) (substitution + cost)).

(** The three loops that fill [dp]. *)
Definition fill_table (word1 word2 : string)
    (nearby_keys : gmap string (list string)) : option (list (list Q)) :=
  let len1 := String.length word1 in
  let len2 := String.length word2 in
  let dp := new_table len1 len2 in
  dp ← Py.for_each (Py.range 0 (len1 + 1))
         (λ i dp, set2 dp i 0 (Py.of_nat i)) dp;
  dp ← Py.for_each (Py.range 0 (len2 + 1))
         (λ j dp, set2 dp 0 j (Py.of_nat j)) dp;
  Py.for_each (Py.range 1 (len1 + 1))
    (λ i dp, Py.for_each (Py.range 1 (len2 + 1))
               (λ j dp, fill_cell word1 word2 nearby_keys i j dp) dp) dp.

(** def modified_levenshtein_ratio(word1, word2, nearby_keys) *)
Definition modified_levenshtein_ratio (word1 word2 : string)
    (nearby_keys : gmap string (list string)) : option Q :=
  let len1 := String.length word1 in
  let len2 := String.length word2 in
  dp ← fill_table word1 word2 nearby_keys;
  dist ← get2 dp len1 len2;
  let max_len :=
    if decide (Nat.max len1 len2 ≠ 0%nat) then Nat.max len1 len2 else 1%nat in
  q ← Py.div dist max_len;
  Some (1 - q).

(** ** Suggestion ranker *)

(** [similarities.sort(key=lambda x: x[1], reverse=True)]: Python's sort is
    stable, also with [reverse=True]; a stable sort has one possible result,
    computed here by insertion. *)
Fixpoint insert_desc (x : string * Q) (l : list (string * Q))
    : list (string * Q) :=
  match l with
  | [] => [x]
  | y :: l' => if Qle_bool y.2 x.2 then x :: y :: l' else y :: insert_desc x l'
  end.

Fixpoint sort_desc (l : list (string * Q)) : list (string * Q) :=
  match l with
  | [] => []
  | x :: l' => insert_desc x (sort_desc l')
  end.

(** The loop [for w in dictionary] of [autocorrect], appending to
    [similarities]. *)
Fixpoint score_entries (word : string) (dictionary : list string)
    (threshold : Q) (nearby_keys : gmap string (list string))
    (similarities : list (string * Q)) : option (list (string * Q)) :=
  match dictionary with
  | [] => Some similarities
  | w :: rest =>
      sim ← modified_levenshtein_ratio word w nearby_keys;
      if Qle_bool threshold sim
      then score_entries word rest threshold nearby_keys
             (similarities ++ [(w, sim)])%list
      else score_entries word rest threshold nearby_keys similarities
  end.

(** [similarities] as it stands after the loop and the sort. *)
Definition ranked (word : string) (dictionary : list string) (threshold : Q)
    (nearby_keys : option (gmap string (list string)))
    : option (list (string * Q)) :=
  let nearby_keys := default ∅ nearby_keys in
  let word := Py.lower word in
  similarities ← score_entries word dictionary threshold nearby_keys [];
  Some (sort_desc similarities).

(** def autocorrect(word, dictionary, threshold=0.75, max_suggestions=5,
                    nearby_keys=None) *)
Definition autocorrect (word : string) (dictionary : list string)
    (threshold : Q) (max_suggestions : Z)
    (nearby_keys : option (gmap string (list string)))
    : option (option string * list string) :=
  similarities ← ranked word dictionary threshold nearby_keys;
  match similarities with
  | [] => Some (None, [])
  | (best_match, best_score) :: _ =>
      let suggestions := (Py.slice_to similarities max_suggestions).*1 in
      if negb (Qle_bool best_score (9 # 10))
      then Some (Some best_match, suggestions)
      else Some (None, suggestions)
  end.

(** The default arguments. *)
Definition default_threshold : Q := 75 # 100.
Definition default_max_suggestions : Z := 5.

(** ** The recurrence the table implements

    [edit_cost R u v] is the weighted distance between two strings given by
    their characters in reverse order: entry [dp[i][j]] of the table holds it
    for the first [i] characters of [word1] and the first [j] of [word2]. *)
Fixpoint edit_cost (R : gmap string (list string)) (u : list ascii)
    : list ascii → Q :=
  match u with
  | [] => λ v, Py.of_nat (length v)
  | c1 :: u' =>
      fix inner (v : list ascii) : Q :=
        match v with
        | [] => Py.of_nat (length u)
        | c2 :: v' =>
            Py.min3 (edit_cost R u' v + 1) (inner v' + 1)
              (edit_cost R u' v' + subst_cost c1 c2 R)
        end
  end.

(** The value of the recurrence at cell [(i, j)] of the table for the
    strings [a] and [b]. *)
Definition cell_value (R : gmap string (list string)) (a b : list ascii)
    (i j : nat) : Q :=
  edit_cost R (reverse (take i a)) (reverse (take j b)).

(** [1 - dist / max_len] with the guarded [max_len]. *)
Definition ratio_of (dist : Q) (len1 len2 : nat) : Q :=
  1 - dist / Py.of_nat (if decide (Nat.max len1 len2 ≠ 0%nat)
                        then Nat.max len1 len2 else 1%nat).

(** [1 - dist / max_len] as floating-point arithmetic computes it: the
    quotient is rounded, then the difference.  [fl] is the rounding; for
    Python's floats it is the rounding to the nearest binary64 number. *)
Definition rounded_ratio (fl : Q → Q) (dist : Q) (len1 len2 : nat) : Q :=
  fl (1 - fl (dist / Py.of_nat (if decide (Nat.max len1 len2 ≠ 0%nat)
                                then Nat.max len1 len2 else 1%nat))).

(** Rounding down to a multiple of [1 / n]: a coarse rounding. *)
Definition round_down (n : positive) (x : Q) : Q :=
  Qfloor (x * inject_Z (Z.pos n)) # n.

(** The ratio of two words by the recurrence; [modified_levenshtein_ratio]
    is proved to return it. *)
Definition similarity (word w : string) (R : gmap string (list string)) : Q :=
  ratio_of (edit_cost R (reverse (list_ascii_of_string word))
              (reverse (list_ascii_of_string w)))
    (String.length word) (String.length w).

(** Adding [n] to the neighbours of key [k] in a keymap. *)
Definition add_neighbor (k n : string) (R : gmap string (list string))
    : gmap string (list string) :=
  <[k := (default [] (R !! k) ++ [n])%list]> R.

(** A table of [h] rows of [w] cells. *)
Definition shaped (h w : nat) (dp : list (list Q)) : Prop :=
  length dp = h ∧ ∀ i row, dp !! i = Some row → length row = w.

(** The cells of the region [P] of the table hold the values of the
    recurrence for the strings [a] and [b]. *)
Definition known (R : gmap string (list string)) (a b : list ascii)
    (P : nat → nat → Prop) (dp : list (list Q)) : Prop :=
  shaped (length a + 1) (length b + 1) dp ∧
  ∀ i j, (i ≤ length a)%nat → (j ≤ length b)%nat → P i j →
         get2 dp i j = Some (cell_value R a b i j).

(** The entries the loop of [autocorrect] keeps, in dictionary order. *)
Definition retained (word : string) (dictionary : list string) (threshold : Q)
    (R : gmap string (list string)) : list (string * Q) :=
  List.filter (λ p, Qle_bool threshold p.2)
    (map (λ w, (w, similarity word w R)) dictionary).

(** [x] may stand before [y] in a list sorted by descending score. *)
Definition by_score_desc (x y : string * Q) : Prop := y.2 <= x.2.

(** The entries of score [q], in the order of the list. *)
Definition with_score (q : Q) (l : list (string * Q)) : list (string * Q) :=
  List.filter (λ p, Qeq_bool p.2 q) l.

(** The key and the neighbour that [are_keys_nearby] looks for are single
    lowercase characters. *)
Definition single_lower (s : string) : Prop :=
  String.length s = 1%nat ∧ Py.lower s = s.

(** ** More Python primitives: text and exceptions *)

Module PyText.

(** [c.isspace()] on an ASCII character: tab, line feed, vertical tab, form
    feed, carriage return, the separators 28 to 31, and the space. *)
Definition is_space (c : ascii) : bool :=
  let n := N_of_ascii c in
  (((9 <=? n) && (n <=? 13)) || ((28 <=? n) && (n <=? 32)))%N.

(** [s.lstrip()]. *)
Fixpoint lstrip (s : string) : string :=
  match s with
  | EmptyString => EmptyString
  | String c s' => if is_space c then lstrip s' else s
  end.

(** [s.rstrip()]. *)
Fixpoint rstrip (s : string) : string :=
  match s with
  | EmptyString => EmptyString
  | String c s' =>
      match rstrip s' with
      | EmptyString => if is_space c then EmptyString else String c EmptyString
      | r => String c r
      end
  end.

(** [s.strip()]. *)
Definition strip (s : string) : string := rstrip (lstrip s).

(** [c in s] for a one-character string [c]. *)
Fixpoint contains (c : ascii) (s : string) : bool :=
  match s with
  | EmptyString => false
  | String c' s' => if decide (c' = c) then true else contains c s'
  end.

(** [s.split(sep)] for a one-character separator. *)
Fixpoint split (sep : ascii) (s : string) : list string :=
  match s with
  | EmptyString => [EmptyString]
  | String c s' =>
      if decide (c = sep) then EmptyString :: split sep s'
      else match split sep s' with
           | [] => [String c EmptyString]
           | piece :: pieces => String c piece :: pieces
           end
  end.

(** [s.split(sep, 1)] for a one-character separator: at most one cut. *)
Fixpoint split_once (sep : ascii) (s : string) : list string :=
  match s with
  | EmptyString => [EmptyString]
  | String c s' =>
      if decide (c = sep) then [EmptyString; s']
      else match split_once sep s' with
           | [] => [String c EmptyString]
           | piece :: pieces => String c piece :: pieces
           end
  end.

(** [sep.join(l)]. *)
Definition join (sep : string) (l : list string) : string :=
  String.concat sep l.

End PyText.

(** The exceptions the program can raise. *)
Inductive exn : Type :=
  | FileNotFoundError (msg : string)
  | ValueError
  | IndexError
  | EOFError
  | EngineError.

(** [a, b = l]: [ValueError] unless [l] has two items. *)
Definition unpack2 (l : list string) : exn + string * string :=
  match l with
  | [a; b] => inr (a, b)
  | _ => inl ValueError
  end.

(** ** Loading the word list and the keymap

    The files are a map from file names to the lines that iterating over the
    open file yields; a name that is not in the map does not exist. *)

(** The loop [for line in f] of [load_wordlist]. *)
Fixpoint wordlist_lines (lines : list string) (words : list string)
    : list string :=
  match lines with
  | [] => words
  | line :: rest =>
      let word := Py.lower (PyText.strip line) in
      if decide (word ≠ EmptyString)
      then wordlist_lines rest (words ++ [word])%list
      else wordlist_lines rest words
  end.

(** def load_wordlist(filename="wordlist") *)
Definition load_wordlist (files : gmap string (list string))
    (filename : string) : exn + list string :=
  match files !! filename with
  | None =>
      inl (FileNotFoundError
             (filename ++ " not found in current directory."))
  | Some lines => inr (wordlist_lines lines [])
  end.

(** [[k.strip().lower() for k in neighbors.split(",") if k.strip()]] *)
Definition neighbor_keys (neighbors : string) : list string :=
  map (λ k, Py.lower (PyText.strip k))
    (List.filter (λ k, bool_decide (PyText.strip k ≠ EmptyString))
       (PyText.split "," neighbors)).

(** The body of the loop [for line in f] of [load_keymap_conf]. *)
Definition keymap_line (line : string) (keymap : gmap string (list string))
    : exn + gmap string (list string) :=
  let line := PyText.strip line in
  if decide (line = EmptyString) then inr keymap
  else if String.prefix "#" line then inr keymap
  else if negb (PyText.contains ":" line) then inr keymap
  else
    match unpack2 (PyText.split_once ":" line) with
    | inl e => inl e
    | inr (key, neighbors) =>
        inr (<[Py.lower key := neighbor_keys neighbors]> keymap)
    end.

Fixpoint keymap_lines (lines : list string)
    (keymap : gmap string (list string))
    : exn + gmap string (list string) :=
  match lines with
  | [] => inr keymap
  | line :: rest =>
      match keymap_line line keymap with
      | inl e => inl e
      | inr keymap' => keymap_lines rest keymap'
      end
  end.

(** A line in the format of the docstring of [load_keymap_conf],
    [key:n1,n2,...]. *)
Definition format_keymap_line (key : string) (neighbors : list string)
    : string :=
  (key ++ String ":" (PyText.join "," neighbors))%string.

(** What a stored keymap entry looks like: a lowercase key without a colon,
    and neighbours that are non-empty, stripped, lowercase and without a
    comma. *)
Definition normal_neighbor (n : string) : Prop :=
  n ≠ EmptyString ∧ PyText.strip n = n ∧ Py.lower n = n ∧
  PyText.contains "," n = false.

Definition normal_entry (k : string) (ns : list string) : Prop :=
  Py.lower k = k ∧ PyText.contains ":" k = false ∧ Forall normal_neighbor ns.

(** def load_keymap_conf(filename="keymap.conf") *)
Definition load_keymap_conf (files : gmap string (list string))
    (filename : string) : exn + gmap string (list string) :=
  match files !! filename with
  | None =>
      inl (FileNotFoundError
             (filename ++ " not found in current directory."))
  | Some lines => keymap_lines lines ∅
  end.

(** ** The console: yes_no_prompt and main

    Standard input is the list of the lines still to be read (without their
    newline); [input()] on an empty list raises [EOFError].  What the program
    writes is recorded as a list of events, oldest first; [text] gives the
    characters each event writes. *)

Inductive event : Type :=
  | Ask (prompt : string)
  | SayError (msg : string)
  | SayPlease
  | SayBanner
  | SayExiting
  | SayNonEmpty
  | SayAutoCorrected (word corrected : string)
  | SayNoAuto (word : string)
  | SaySuggestion (idx : nat) (suggestion : string)
  | SayCorrected (word chosen : string)
  | SayInvalidSelection
  | SayNoCorrection
  | SayInvalidInput
  | SayNoSuggestions (word : string).

(** The newline character. *)
Definition nl : string := String "010" EmptyString.

(** [str(n)] for an int [n >= 0]. *)
Definition str_of_nat (n : nat) : string :=
  NilZero.string_of_uint (Nat.to_uint n).

(** The argument of [input] or [print] for each event ([print] adds a
    newline). *)
Definition text (e : event) : string :=
  match e with
  | Ask prompt => prompt
  | SayError msg => msg
  | SayPlease => "Please enter 'y' or 'n'."
  | SayBanner => nl ++ "Enter words to autocorrect, or type 'exit' to quit."
  | SayExiting => "Exiting."
  | SayNonEmpty => "Please enter a non-empty word."
  | SayAutoCorrected word corrected =>
      "Auto-corrected '" ++ word ++ "' to '" ++ corrected ++ "'."
  | SayNoAuto word =>
      "No auto-correction applied for '" ++ word ++ "'. Suggestions:"
  | SaySuggestion idx suggestion =>
      "  " ++ str_of_nat idx ++ ". " ++ suggestion
  | SayCorrected word chosen =>
      "Corrected '" ++ word ++ "' to '" ++ chosen ++ "'."
  | SayInvalidSelection => "Invalid selection. No correction applied."
  | SayNoCorrection => "No correction applied."
  | SayInvalidInput => "Invalid input. No correction applied."
  | SayNoSuggestions word => "No suggestions found for '" ++ word ++ "'."
  end%string.

(** The outcome of a run: the value or the exception, the lines of standard
    input left unread, and the events. *)
Definition run (A : Type) : Type := (exn + A) * list string * list event.

(** Events that happened before a run. *)
Definition after {A : Type} (events : list event) (r : run A) : run A :=
  let '(v, stdin, events') := r in (v, stdin, (events ++ events')%list).

(** [s.isdigit()] on ASCII text: not empty and only the digits 0 to 9
    (characters outside ASCII that Python also counts as digits are outside
    this model, as for [lower]). *)
Definition is_digit (c : ascii) : bool :=
  let n := N_of_ascii c in ((48 <=? n) && (n <=? 57))%N.

Fixpoint all_digits (s : string) : bool :=
  match s with
  | EmptyString => true
  | String c s' => is_digit c && all_digits s'
  end.

Definition isdigit (s : string) : bool :=
  negb (bool_decide (s = EmptyString)) && all_digits s.

(** [s.isascii()]: every character is below 128.  On such text, [lower],
    [strip] and [isdigit] are those of Python. *)
Definition isascii (s : string) : bool :=
  forallb (λ c, (N_of_ascii c <? 128)%N) (list_ascii_of_string s).

(** The value of a string of ASCII digits. *)
Fixpoint int_digits (acc : Z) (s : string) : Z :=
  match s with
  | EmptyString => acc
  | String c s' => int_digits (10 * acc + (Z.of_N (N_of_ascii c) - 48)) s'
  end.

(** The default of [sys.int_max_str_digits] (CPython 3.11 and later). *)
Definition int_max_str_digits : nat := 4300.

(** [int(s)] for a string of ASCII digits, the only strings the program
    passes to it: [ValueError] when the string has more digits (leading
    zeros included) than [int_max_str_digits]. *)
Definition int (s : string) : exn + Z :=
  if decide (int_max_str_digits < String.length s)%nat then inl ValueError
  else inr (int_digits 0 s).

(** [l[i]] for an int [i]: a negative [i] counts from the end, and an index
    out of range raises [IndexError]. *)
Definition index {A : Type} (l : list A) (i : Z) : exn + A :=
  let j := if (0 <=? i)%Z then i else (Z.of_nat (length l) + i)%Z in
  if (j <? 0)%Z then inl IndexError
  else match l !! Z.to_nat j with
       | Some x => inr x
       | None => inl IndexError
       end.

(** [for idx, suggestion in enumerate(suggestions, start=idx)]: the lines of
    the list of suggestions. *)
Fixpoint say_suggestions (idx : nat) (suggestions : list string)
    : list event :=
  match suggestions with
  | [] => []
  | suggestion :: rest =>
      SaySuggestion idx suggestion :: say_suggestions (S idx) rest
  end.

(** def yes_no_prompt(prompt) *)
Fixpoint yes_no_prompt (prompt : string) (stdin : list string) : run bool :=
  let ask := Ask (prompt ++ " [y/n]: ") in
  match stdin with
  | [] => (inl EOFError, [], [ask])
  | line :: rest =>
      let answer := Py.lower (PyText.strip line) in
      if bool_decide (answer ∈ ["y"; "yes"]) then (inr true, rest, [ask])
      else if bool_decide (answer ∈ ["n"; "no"]) then (inr false, rest, [ask])
      else after [ask; SayPlease] (yes_no_prompt prompt rest)
  end.

(** The branch [if selection.isdigit() / elif selection == "" / else] of
    [main]: the event it prints, or the exception of [int] or of the
    indexing. *)
Definition pick (word : string) (suggestions : list string)
    (selection : string) : exn + event :=
  if isdigit selection then
    match int selection with
    | inl e => inl e
    | inr n =>
        let sel_index := (n - 1)%Z in
        if ((0 <=? sel_index)
            && (sel_index <? Z.of_nat (length suggestions)))%Z
        then match index suggestions sel_index with
             | inl e => inl e
             | inr chosen_word => inr (SayCorrected word chosen_word)
             end
        else inr SayInvalidSelection
    end
  else if bool_decide (selection = EmptyString) then inr SayNoCorrection
  else inr SayInvalidInput.

(** The truth value of [corrected], a string or [None]: an empty string is
    false. *)
Definition truthy (corrected : option string) : bool :=
  match corrected with
  | Some s => negb (bool_decide (s = EmptyString))
  | None => false
  end.

(** [corrected] as an f-string formats it. *)
Definition str_of (corrected : option string) : string :=
  match corrected with
  | Some s => s
  | None => "None"
  end.

Definition pick_prompt : string :=
  "Pick a number to correct to that word, or press Enter to skip: ".

(** The loop [while True] of [main]. *)
Fixpoint main_loop (auto_correct_mode : bool) (dictionary : list string)
    (nearby_keys : gmap string (list string)) (stdin : list string)
    : run unit :=
  let ask := Ask (nl ++ "Enter word: ") in
  match stdin with
  | [] => (inl EOFError, [], [ask])
  | line :: rest =>
      let word := PyText.strip line in
      if bool_decide (Py.lower word ∈ ["exit"; "quit"])
      then (inr (), rest, [ask; SayExiting])
      else if bool_decide (word = EmptyString)
      then after [ask; SayNonEmpty]
             (main_loop auto_correct_mode dictionary nearby_keys rest)
      else
        match autocorrect word dictionary default_threshold
                default_max_suggestions (Some nearby_keys) with
        | None => (inl EngineError, rest, [ask])
        | Some (corrected, suggestions) =>
            if auto_correct_mode && truthy corrected
            then after [ask; SayAutoCorrected word (str_of corrected)]
                   (main_loop auto_correct_mode dictionary nearby_keys rest)
            else
              match suggestions with
              | [] =>
                  after [ask; SayNoSuggestions word]
                    (main_loop auto_correct_mode dictionary nearby_keys rest)
              | _ :: _ =>
                  let listing :=
                    ([ask; SayNoAuto word] ++ say_suggestions 1 suggestions
                     ++ [Ask pick_prompt])%list in
                  match rest with
                  | [] => (inl EOFError, [], listing)
                  | answer :: rest' =>
                      match pick word suggestions (PyText.strip answer) with
                      | inl e => (inl e, rest', listing)
                      | inr said =>
                          after (listing ++ [said])%list
                            (main_loop auto_correct_mode dictionary
                               nearby_keys rest')
                      end
                  end
              end
        end
  end.

(** def main() *)
Definition main (files : gmap string (list string)) (stdin : list string)
    : run unit :=
  match load_wordlist files "wordlist" with
  | inl (FileNotFoundError msg) => (inr (), stdin, [SayError msg])
  | inl e => (inl e, stdin, [])
  | inr dictionary =>
      match load_keymap_conf files "keymap.conf" with
      | inl (FileNotFoundError msg) => (inr (), stdin, [SayError msg])
      | inl e => (inl e, stdin, [])
      | inr nearby_keys =>
          match yes_no_prompt "Enable automatic correction if confident?"
                  stdin with
          | (inl e, stdin', events) => (inl e, stdin', events)
          | (inr auto_correct_mode, stdin', events) =>
              after (events ++ [SayBanner])%list
                (main_loop auto_correct_mode dictionary nearby_keys stdin')
          end
      end
  end.

(** The events one round of the loop of [main] can write, with where their
    words come from. *)
Inductive emitted (auto_correct_mode : bool) (dictionary : list string)
    (nearby_keys : gmap string (list string)) : event → Prop :=
  | emitted_ask prompt :
      emitted auto_correct_mode dictionary nearby_keys (Ask prompt)
  | emitted_exiting :
      emitted auto_correct_mode dictionary nearby_keys SayExiting
  | emitted_non_empty :
      emitted auto_correct_mode dictionary nearby_keys SayNonEmpty
  | emitted_auto word best suggestions :
      auto_correct_mode = true →
      autocorrect word dictionary default_threshold default_max_suggestions
        (Some nearby_keys) = Some (Some best, suggestions) →
      emitted auto_correct_mode dictionary nearby_keys
        (SayAutoCorrected word best)
  | emitted_no_auto word :
      emitted auto_correct_mode dictionary nearby_keys (SayNoAuto word)
  | emitted_suggestion word corrected suggestions idx suggestion :
      autocorrect word dictionary default_threshold default_max_suggestions
        (Some nearby_keys) = Some (corrected, suggestions) →
      suggestions !! idx = Some suggestion →
      emitted auto_correct_mode dictionary nearby_keys
        (SaySuggestion (S idx) suggestion)
  | emitted_corrected word corrected suggestions selection n chosen :
      autocorrect word dictionary default_threshold default_max_suggestions
        (Some nearby_keys) = Some (corrected, suggestions) →
      isdigit selection = true → int selection = inr n →
      (1 ≤ n ≤ Z.of_nat (length suggestions))%Z →
      suggestions !! Z.to_nat (n - 1) = Some chosen →
      emitted auto_correct_mode dictionary nearby_keys
        (SayCorrected word chosen)
  | emitted_invalid_selection :
      emitted auto_correct_mode dictionary nearby_keys SayInvalidSelection
  | emitted_no_correction :
      emitted auto_correct_mode dictionary nearby_keys SayNoCorrection
  | emitted_invalid_input :
      emitted auto_correct_mode dictionary nearby_keys SayInvalidInput
  | emitted_no_suggestions word :
      emitted auto_correct_mode dictionary nearby_keys (SayNoSuggestions word).

(** How a run of the loop of [main] on the input [stdin] can end, leaving
    [rest] unread: on an exit command, [rest] being the lines after it; on
    the end of the input; or on a selection of more digits than [int]
    converts, [rest] being the lines after it. *)
Definition ending (stdin : list string) (v : exn + unit) (rest : list string)
    (events : list event) : Prop :=
  (v = inr () ∧ last events = Some SayExiting ∧
   ∃ before line,
     stdin = (before ++ line :: rest)%list ∧
     Py.lower (PyText.strip line) ∈ ["exit"; "quit"]) ∨
  (v = inl EOFError ∧ rest = []) ∨
  (v = inl ValueError ∧ last events = Some (Ask pick_prompt) ∧
   ∃ before line,
     stdin = (before ++ line :: rest)%list ∧
     isdigit (PyText.strip line) = true ∧
     (int_max_str_digits < String.length (PyText.strip line))%nat).

(** A session whose selection has 4301 digits, one more than [int]
    converts. *)
Definition long_selection_input : list string :=
  ["n"; "helo"; string_of_list_ascii (replicate 4301 "1"%char); "exit"].

(** ** Tactics *)

(** Case analysis on every [Qmin] of the goal, then linear arithmetic. *)
Ltac min_cases :=
  unfold Py.min3 in *;
  repeat match goal with
  | |- context [Qmin ?x ?y] =>
      let H := fresh in
      destruct (Q.min_spec x y) as [[? H]|[? H]]; rewrite H in *; clear H
  | _ : context [Qmin ?x ?y] |- _ =>
      let H := fresh in
      destruct (Q.min_spec x y) as [[? H]|[? H]]; rewrite H in *; clear H
  end;
  try lra.

(** Names the denominator [max_len] of the ratio in the goal. *)
Ltac name_max_len m :=
  match goal with
  | |- context [Py.of_nat (if ?c then ?x else ?y)] =>
      set (m := Py.of_nat (if c then x else y)) in *
  end.

(** ** Numbers *)

Lemma of_nat_S n : Py.of_nat (S n) == Py.of_nat n + 1.
Proof.
  unfold Py.of_nat. rewrite Nat2Z.inj_succ, <- Z.add_1_r, inject_Z_plus.
  reflexivity.
Qed.

Lemma of_nat_nonneg n : 0 <= Py.of_nat n.
Proof.
  unfold Py.of_nat. change 0 with (inject_Z 0). rewrite <- Zle_Qle. lia.
Qed.

Lemma of_nat_le n m : (n ≤ m)%nat → Py.of_nat n <= Py.of_nat m.
Proof. intros H. unfold Py.of_nat. rewrite <- Zle_Qle. lia. Qed.

Lemma of_nat_pos n : (0 < n)%nat → 0 < Py.of_nat n.
Proof.
  intros H. unfold Py.of_nat. change 0 with (inject_Z 0).
  rewrite <- Zlt_Qlt. lia.
Qed.

Lemma of_nat_zero n : Py.of_nat n == 0 → n = 0%nat.
Proof.
  intros H. destruct n as [|n]; [done|].
  pose proof (of_nat_pos (S n) ltac:(lia)) as Hp. rewrite H in Hp.
  by apply Qlt_irrefl in Hp.
Qed.

(** ** The cost of a substitution *)

Lemma subst_cost_cases c1 c2 R :
  subst_cost c1 c2 R = 0 ∨ subst_cost c1 c2 R = 1 # 2 ∨ subst_cost c1 c2 R = 1.
Proof.
  unfold subst_cost. case_decide; [by left|].
  destruct (are_keys_nearby c1 c2 R); auto.
Qed.

Lemma subst_cost_bounds c1 c2 R : 0 <= subst_cost c1 c2 R <= 1.
Proof. destruct (subst_cost_cases c1 c2 R) as [-> | [-> | ->]]; lra. Qed.

Lemma subst_cost_zero c1 c2 R : subst_cost c1 c2 R == 0 ↔ c1 = c2.
Proof.
  unfold subst_cost. case_decide; [done|].
  destruct (are_keys_nearby c1 c2 R); split; (done || lra).
Qed.

(** ** The recurrence: unfolding, bounds, zero, monotonicity *)

Section EditCost.
Context (R : gmap string (list string)).

Lemma edit_cost_nil_l v : edit_cost R [] v = Py.of_nat (length v).
Proof. reflexivity. Qed.

Lemma edit_cost_nil_r u : edit_cost R u [] = Py.of_nat (length u).
Proof. by destruct u. Qed.

Lemma edit_cost_cons c1 u c2 v :
  edit_cost R (c1 :: u) (c2 :: v) =
  Py.min3 (edit_cost R u (c2 :: v) + 1) (edit_cost R (c1 :: u) v + 1)
    (edit_cost R u v + subst_cost c1 c2 R).
Proof. reflexivity. Qed.

(** Induction over both strings, following the recurrence. *)
Lemma edit_cost_ind (P : list ascii → list ascii → Prop) :
  (∀ v, P [] v) →
  (∀ u, P u []) →
  (∀ c1 u c2 v, P u (c2 :: v) → P (c1 :: u) v → P u v →
                P (c1 :: u) (c2 :: v)) →
  ∀ u v, P u v.
Proof.
  intros Hl Hr Hc u. induction u as [|c1 u IHu]; [done|].
  intros v. induction v as [|c2 v IHv]; [done|]. by apply Hc.
Qed.

Lemma edit_cost_nonneg u v : 0 <= edit_cost R u v.
Proof.
  revert u v. apply edit_cost_ind.
  - intros v. apply of_nat_nonneg.
  - intros u. rewrite edit_cost_nil_r. apply of_nat_nonneg.
  - intros c1 u c2 v H1 H2 H3. rewrite edit_cost_cons.
    pose proof (subst_cost_bounds c1 c2 R). min_cases.
Qed.

Lemma edit_cost_le_max u v :
  edit_cost R u v <= Py.of_nat (Nat.max (length u) (length v)).
Proof.
  revert u v. apply edit_cost_ind.
  - intros v. apply Qle_refl.
  - intros u. rewrite edit_cost_nil_r, Nat.max_0_r. apply Qle_refl.
  - intros c1 u c2 v _ _ H3. rewrite edit_cost_cons.
    cbn [length]. rewrite <- Nat.succ_max_distr, of_nat_S.
    pose proof (subst_cost_bounds c1 c2 R). min_cases.
Qed.

Lemma edit_cost_refl u : edit_cost R u u == 0.
Proof.
  induction u as [|c u IH]; [reflexivity|].
  rewrite edit_cost_cons.
  pose proof (edit_cost_nonneg u (c :: u)).
  pose proof (edit_cost_nonneg (c :: u) u).
  assert (subst_cost c c R == 0) by by apply subst_cost_zero.
  min_cases.
Qed.

Lemma edit_cost_zero u v : edit_cost R u v == 0 → u = v.
Proof.
  revert u v.
  apply (edit_cost_ind (λ u v, edit_cost R u v == 0 → u = v)).
  - intros v Hz. apply of_nat_zero in Hz. by destruct v.
  - intros u. rewrite edit_cost_nil_r. intros Hz.
    apply of_nat_zero in Hz. by destruct u.
  - intros c1 u c2 v _ _ IH. rewrite edit_cost_cons. intros Hz.
    pose proof (edit_cost_nonneg u (c2 :: v)).
    pose proof (edit_cost_nonneg (c1 :: u) v).
    pose proof (edit_cost_nonneg u v).
    pose proof (subst_cost_bounds c1 c2 R).
    assert (edit_cost R u v == 0 ∧ subst_cost c1 c2 R == 0) as [Hd Hc]
      by (split; min_cases).
    apply subst_cost_zero in Hc. f_equal; auto.
Qed.

Lemma edit_cost_zero_iff u v : edit_cost R u v == 0 ↔ u = v.
Proof.
  split; [apply edit_cost_zero|]. intros ->. apply edit_cost_refl.
Qed.
End EditCost.

Lemma edit_cost_mono R R' u v :
  (∀ c1 c2, subst_cost c1 c2 R' <= subst_cost c1 c2 R) →
  edit_cost R' u v <= edit_cost R u v.
Proof.
  intros Hc. revert u v. apply edit_cost_ind.
  - intros v. apply Qle_refl.
  - intros u. rewrite !edit_cost_nil_r. apply Qle_refl.
  - intros c1 u c2 v H1 H2 H3. rewrite !edit_cost_cons.
    specialize (Hc c1 c2). min_cases.
Qed.

(** ** Loops and the table *)

Local Open Scope nat_scope.

(** The loop rule: an invariant carried through [for i in range(lo, lo + n)]
    whose body never raises under it. *)
Lemma for_each_seq_inv {St : Type} (Inv : nat → St → Prop)
    (body : nat → St → option St) (n lo : nat) (s : St) :
  Inv lo s →
  (∀ i s, lo ≤ i < lo + n → Inv i s → ∃ s', body i s = Some s' ∧ Inv (S i) s') →
  ∃ s', Py.for_each (seq lo n) body s = Some s' ∧ Inv (lo + n) s'.
Proof.
  revert lo s. induction n as [|n IH]; intros lo s H0 Hstep.
  - exists s. by rewrite Nat.add_0_r.
  - destruct (Hstep lo s ltac:(lia) H0) as (s1 & Hb & H1).
    destruct (IH (S lo) s1 H1) as (s' & Hf & H');
      [intros i s2 Hi; apply Hstep; lia|].
    exists s'. cbn [seq Py.for_each]. rewrite Hb. cbn.
    split; [done|]. by replace (lo + S n) with (S lo + n) by lia.
Qed.


Lemma new_table_shaped len1 len2 :
  shaped (len1 + 1) (len2 + 1) (new_table len1 len2).
Proof.
  unfold new_table. split; [apply length_replicate|].
  intros i row [-> _]%lookup_replicate. apply length_replicate.
Qed.

Lemma set2_shaped h w dp i j v :
  shaped h w dp → i < h → j < w →
  ∃ dp', set2 dp i j v = Some dp' ∧ shaped h w dp' ∧
         get2 dp' i j = Some v ∧
         ∀ i' j', ¬ (i' = i ∧ j' = j) → get2 dp' i' j' = get2 dp i' j'.
Proof.
  intros [Hh Hw] Hi Hj.
  destruct (lookup_lt_is_Some_2 dp i) as [row Hrow]; [lia|].
  pose proof (Hw _ _ Hrow) as Hlen.
  exists (<[i := <[j := v]> row]> dp). unfold set2, get2. rewrite Hrow. cbn.
  rewrite decide_True by lia. split; [done|]. split; [|split].
  - split; [by rewrite length_insert|].
    intros i' row'. destruct (decide (i = i')) as [<-|Hne].
    + rewrite list_lookup_insert_eq by lia. intros [= <-].
      by rewrite length_insert.
    + rewrite list_lookup_insert_ne by done. apply Hw.
  - rewrite list_lookup_insert_eq by lia. cbn.
    by rewrite list_lookup_insert_eq by lia.
  - intros i' j' Hne. destruct (decide (i = i')) as [<-|Hi'].
    + rewrite list_lookup_insert_eq, Hrow by lia. cbn.
      rewrite list_lookup_insert_ne; [done|]. intros ->. by apply Hne.
    + by rewrite list_lookup_insert_ne.
Qed.

Lemma get_chars s i : String.get i s = list_ascii_of_string s !! i.
Proof.
  revert i. induction s as [|c s IH]; intros [|i]; cbn; done.
Qed.

Lemma length_chars s : length (list_ascii_of_string s) = String.length s.
Proof. induction s as [|c s IH]; cbn; [done|]. by rewrite IH. Qed.

Section Table.
Context (R : gmap string (list string)) (a b : list ascii).

Lemma cell_value_col0 i : i ≤ length a → cell_value R a b i 0 = Py.of_nat i.
Proof.
  intros Hi. unfold cell_value. rewrite take_0, edit_cost_nil_r.
  by rewrite length_reverse, length_take, Nat.min_l.
Qed.

Lemma cell_value_row0 j : j ≤ length b → cell_value R a b 0 j = Py.of_nat j.
Proof.
  intros Hj. unfold cell_value. rewrite take_0, edit_cost_nil_l.
  by rewrite length_reverse, length_take, Nat.min_l.
Qed.

Lemma cell_value_step i j c1 c2 :
  a !! i = Some c1 → b !! j = Some c2 →
  cell_value R a b (S i) (S j) =
  Py.min3 (cell_value R a b i (S j) + 1) (cell_value R a b (S i) j + 1)
    (cell_value R a b i j + subst_cost c1 c2 R).
Proof.
  intros Ha Hb. unfold cell_value.
  rewrite (take_S_r _ _ _ Ha), (take_S_r _ _ _ Hb), !reverse_snoc.
  apply edit_cost_cons.
Qed.

Lemma cell_value_last :
  cell_value R a b (length a) (length b) =
  edit_cost R (reverse a) (reverse b).
Proof. unfold cell_value. by rewrite !take_ge. Qed.


Lemma known_weaken (P P' : nat → nat → Prop) dp :
  known R a b P dp → (∀ i j, P' i j → P i j) → known R a b P' dp.
Proof. intros [Hs Hk] HP. split; [done|]. intros i j Hi Hj Hij. auto. Qed.

(** Writing the right value in a cell enlarges the known region. *)
Lemma set2_known (P P' : nat → nat → Prop) dp i j v :
  known R a b P dp → i ≤ length a → j ≤ length b →
  v = cell_value R a b i j →
  (∀ i' j', P' i' j' → P i' j' ∨ (i' = i ∧ j' = j)) →
  ∃ dp', set2 dp i j v = Some dp' ∧ known R a b P' dp'.
Proof.
  intros [Hs Hk] Hi Hj -> HP.
  destruct (set2_shaped _ _ dp i j (cell_value R a b i j) Hs)
    as (dp' & Hset & Hs' & Hget & Hother); [lia..|].
  exists dp'. split; [done|]. split; [done|].
  intros i' j' Hi' Hj' Hij. destruct (HP _ _ Hij) as [HPij|[-> ->]]; [|done].
  destruct (decide (i' = i ∧ j' = j)) as [[-> ->]|Hne]; [done|].
  rewrite Hother by done. auto.
Qed.
End Table.

Local Close Scope nat_scope.

(** ** The table is filled without an error and holds the recurrence *)

Section FillTable.
Context (word1 word2 : string) (R : gmap string (list string)).
Local Abbreviation a := (list_ascii_of_string word1).
Local Abbreviation b := (list_ascii_of_string word2).
Local Abbreviation len1 := (String.length word1).
Local Abbreviation len2 := (String.length word2).

Local Open Scope nat_scope.

Lemma fill_cell_known i j dp :
  1 ≤ i ≤ len1 → 1 ≤ j ≤ len2 →
  known R a b (λ i' j', i' < i ∨ j' = 0 ∨ (i' = i ∧ j' < j)) dp →
  ∃ dp', fill_cell word1 word2 R i j dp = Some dp' ∧
         known R a b (λ i' j', i' < i ∨ j' = 0 ∨ (i' = i ∧ j' < S j)) dp'.
Proof.
  assert (Hla : length a = len1) by apply length_chars.
  assert (Hlb : length b = len2) by apply length_chars.
  intros Hi Hj Hk. unfold fill_cell.
  destruct i as [|i]; [lia|]. destruct j as [|j]; [lia|].
  replace (S i - 1) with i by lia. replace (S j - 1) with j by lia.
  rewrite !get_chars.
  destruct (lookup_lt_is_Some_2 a i) as [c1 Hc1]; [lia|].
  destruct (lookup_lt_is_Some_2 b j) as [c2 Hc2]; [lia|].
  rewrite Hc1, Hc2. cbn.
  pose proof Hk as [Hs Hget].
  rewrite (Hget i (S j)), (Hget (S i) j), (Hget i j) by lia. cbn.
  eapply set2_known; [exact Hk|lia|lia| |].
  - symmetry. by apply cell_value_step.
  - intros i' j' Hij. cbn beta in *. lia.
Qed.

Lemma fill_table_known :
  ∃ dp, fill_table word1 word2 R = Some dp ∧ known R a b (λ _ _, True) dp.
Proof.
  assert (Hla : length a = len1) by apply length_chars.
  assert (Hlb : length b = len2) by apply length_chars.
  unfold fill_table, Py.range.
  rewrite !Nat.sub_0_r, !Nat.add_sub.
  (* for i in range(len1 + 1): dp[i][0] = i *)
  destruct (for_each_seq_inv
              (λ i, known R a b (λ i' j', i' < i ∧ j' = 0))
              (λ i dp, set2 dp i 0 (Py.of_nat i)) (len1 + 1) 0
              (new_table len1 len2)) as (dp1 & -> & H1).
  { split; [rewrite Hla, Hlb; apply new_table_shaped|]. intros; lia. }
  { intros i dp Hi Hk. eapply set2_known; [exact Hk|lia|lia| |].
    - symmetry. apply cell_value_col0. lia.
    - intros i' j' Hij. cbn beta in *. lia. }
  cbn [mbind option_bind].
  (* for j in range(len2 + 1): dp[0][j] = j *)
  destruct (for_each_seq_inv
              (λ j, known R a b (λ i' j', j' = 0 ∨ (i' = 0 ∧ j' < j)))
              (λ j dp, set2 dp 0 j (Py.of_nat j)) (len2 + 1) 0 dp1)
    as (dp2 & -> & H2).
  { destruct H1 as [Hs1 Hk1]. split; [done|]. intros i j Hi Hj Hij.
    apply Hk1; lia. }
  { intros j dp Hj Hk. eapply set2_known; [exact Hk|lia|lia| |].
    - symmetry. apply cell_value_row0. lia.
    - intros i' j' Hij. cbn beta in *. lia. }
  cbn [mbind option_bind].
  (* the nested loops *)
  destruct (for_each_seq_inv
              (λ i, known R a b (λ i' j', i' < i ∨ j' = 0))
              (λ i dp, Py.for_each (seq 1 len2)
                         (λ j dp, fill_cell word1 word2 R i j dp) dp)
              len1 1 dp2) as (dp3 & -> & H3).
  { destruct H2 as [Hs2 Hk2]. split; [done|]. intros i j Hi Hj Hij.
    apply Hk2; lia. }
  { intros i dp Hi Hk.
    destruct (for_each_seq_inv
                (λ j, known R a b (λ i' j', i' < i ∨ j' = 0 ∨ (i' = i ∧ j' < j)))
                (λ j dp, fill_cell word1 word2 R i j dp) len2 1 dp)
      as (dp' & -> & H').
    - eapply known_weaken; [exact Hk|]. intros i' j' Hij. cbn in *. lia.
    - intros j dp' Hj Hk'. apply fill_cell_known; [lia|lia|done].
    - exists dp'. split; [done|].
      destruct H' as [Hs' Hk']. split; [done|]. intros i' j' Hi' Hj' Hij.
      apply Hk'; lia. }
  exists dp3. split; [done|].
  destruct H3 as [Hs3 Hk3]. split; [done|]. intros i j Hi Hj _.
  apply Hk3; lia.
Qed.

(** The ratio is computed without an error and is the one of the
    recurrence. *)
Lemma modified_levenshtein_ratio_eq :
  modified_levenshtein_ratio word1 word2 R = Some (similarity word1 word2 R).
Proof.
  assert (Hla : length a = len1) by apply length_chars.
  assert (Hlb : length b = len2) by apply length_chars.
  unfold modified_levenshtein_ratio.
  destruct fill_table_known as (dp & -> & Hs & Hk). cbn [mbind option_bind].
  rewrite (Hk len1 len2) by (done || lia). cbn [mbind option_bind].
  rewrite <- Hla at 1. rewrite <- Hlb at 1. rewrite cell_value_last.
  unfold Py.div, similarity, ratio_of.
  rewrite decide_False; [done|]. case_decide; lia.
Qed.
End FillTable.

(** ** The ratio *)

Lemma max_len_pos len1 len2 :
  0 < Py.of_nat (if decide (Nat.max len1 len2 ≠ 0%nat)
                 then Nat.max len1 len2 else 1%nat).
Proof. apply of_nat_pos. case_decide; lia. Qed.

Lemma max_len_ge len1 len2 :
  Py.of_nat (Nat.max len1 len2) <=
  Py.of_nat (if decide (Nat.max len1 len2 ≠ 0%nat)
             then Nat.max len1 len2 else 1%nat).
Proof. apply of_nat_le. case_decide; lia. Qed.


Lemma ratio_of_bounds dist len1 len2 :
  0 <= dist → dist <= Py.of_nat (Nat.max len1 len2) →
  0 <= ratio_of dist len1 len2 <= 1.
Proof.
  intros H0 Hmax. unfold ratio_of.
  pose proof (max_len_pos len1 len2) as Hpos.
  pose proof (max_len_ge len1 len2) as Hge.
  name_max_len m.
  assert (0 <= dist / m) by (apply Qle_shift_div_l; [assumption|lra]).
  assert (dist / m <= 1) by (apply Qle_shift_div_r; [assumption|lra]).
  lra.
Qed.

Lemma ratio_of_one dist len1 len2 : ratio_of dist len1 len2 == 1 ↔ dist == 0.
Proof.
  unfold ratio_of. pose proof (max_len_pos len1 len2) as Hpos.
  name_max_len m.
  assert (Hm : ¬ m == 0) by lra. split.
  - intros H. assert (Hq : dist / m == 0) by lra.
    rewrite <- (Qmult_div_r dist m Hm), Hq. ring.
  - intros ->. unfold Qdiv. ring.
Qed.

Lemma ratio_of_mono dist dist' len1 len2 :
  dist' <= dist → ratio_of dist len1 len2 <= ratio_of dist' len1 len2.
Proof.
  intros Hle. unfold ratio_of. pose proof (max_len_pos len1 len2) as Hpos.
  name_max_len m.
  assert (dist' / m <= dist / m).
  { unfold Qdiv. apply Qmult_le_compat_r; [assumption|].
    apply Qinv_le_0_compat. lra. }
  lra.
Qed.

(** ** The similarity of two words *)

Lemma similarity_bounds word w R : 0 <= similarity word w R <= 1.
Proof.
  unfold similarity. apply ratio_of_bounds; [apply edit_cost_nonneg|].
  rewrite <- !length_chars, <- (length_reverse (list_ascii_of_string word)),
    <- (length_reverse (list_ascii_of_string w)).
  apply edit_cost_le_max.
Qed.

Lemma similarity_one_iff word w R : similarity word w R == 1 ↔ word = w.
Proof.
  unfold similarity. rewrite ratio_of_one, edit_cost_zero_iff. split.
  - intros H. apply (f_equal reverse) in H. rewrite !reverse_involutive in H.
    apply (f_equal string_of_list_ascii) in H.
    by rewrite !string_of_list_ascii_of_string in H.
  - by intros ->.
Qed.

Lemma similarity_mono word w R R' :
  (∀ c1 c2, subst_cost c1 c2 R' <= subst_cost c1 c2 R) →
  similarity word w R <= similarity word w R'.
Proof. intros Hc. apply ratio_of_mono. by apply edit_cost_mono. Qed.

(** ** Sorting by score *)




Lemma insert_desc_perm x l : insert_desc x l ≡ₚ x :: l.
Proof.
  induction l as [|y l IH]; cbn; [done|].
  destruct (Qle_bool y.2 x.2); [done|]. rewrite IH. apply Permutation_swap.
Qed.

Lemma sort_desc_perm l : sort_desc l ≡ₚ l.
Proof.
  induction l as [|x l IH]; cbn; [done|]. by rewrite insert_desc_perm, IH.
Qed.

Lemma insert_desc_sorted x l :
  StronglySorted by_score_desc l → StronglySorted by_score_desc (insert_desc x l).
Proof.
  induction 1 as [|y l Hs IH Hy]; cbn.
  - by repeat constructor.
  - destruct (Qle_bool y.2 x.2) eqn:Hle.
    + apply Qle_bool_iff in Hle. constructor; [by constructor|].
      constructor; [done|]. eapply Forall_impl; [exact Hy|].
      intros z Hz. unfold by_score_desc in *. lra.
    + constructor; [done|]. rewrite insert_desc_perm. constructor; [|done].
      unfold by_score_desc. destruct (Qlt_le_dec x.2 y.2) as [Hlt|Hge].
      * lra.
      * apply Qle_bool_iff in Hge. congruence.
Qed.

Lemma sort_desc_sorted l : StronglySorted by_score_desc (sort_desc l).
Proof.
  induction l as [|x l IH]; cbn; [constructor|]. by apply insert_desc_sorted.
Qed.

(** Stability: entries of equal score keep their order. *)
Lemma with_score_insert_desc q x l :
  with_score q (insert_desc x l) = with_score q (x :: l).
Proof.
  induction l as [|y l IH]; [done|]. cbn [insert_desc].
  destruct (Qle_bool y.2 x.2) eqn:Hle; [done|].
  unfold with_score in *. cbn [List.filter] in *. rewrite IH.
  destruct (Qeq_bool x.2 q) eqn:Hx, (Qeq_bool y.2 q) eqn:Hy; try done.
  apply Qeq_bool_iff in Hx, Hy.
  assert (Qle_bool y.2 x.2 = true); [|congruence].
  apply Qle_bool_iff. rewrite Hx, Hy. apply Qle_refl.
Qed.

Lemma with_score_sort_desc q l : with_score q (sort_desc l) = with_score q l.
Proof.
  induction l as [|x l IH]; [done|]. cbn [sort_desc].
  rewrite with_score_insert_desc. unfold with_score in *. cbn [List.filter].
  by rewrite IH.
Qed.

(** ** The ranker, loop by loop *)

Lemma score_entries_eq word dictionary threshold R acc :
  score_entries word dictionary threshold R acc =
  Some (acc ++ retained word dictionary threshold R)%list.
Proof.
  revert acc. induction dictionary as [|w rest IH]; intros acc.
  - cbn. by rewrite app_nil_r.
  - cbn [score_entries]. rewrite modified_levenshtein_ratio_eq.
    cbn [mbind option_bind]. unfold retained. cbn [map List.filter snd].
    destruct (Qle_bool threshold (similarity word w R)).
    + rewrite IH. by rewrite <- app_assoc.
    + apply IH.
Qed.

Lemma ranked_eq word dictionary threshold nearby_keys :
  ranked word dictionary threshold nearby_keys =
  Some (sort_desc (retained (Py.lower word) dictionary threshold
                     (default ∅ nearby_keys))).
Proof. unfold ranked. by rewrite score_entries_eq. Qed.

Lemma elem_of_retained word dictionary threshold R w s :
  (w, s) ∈ retained word dictionary threshold R ↔
  w ∈ dictionary ∧ s = similarity word w R ∧ threshold <= s.
Proof.
  unfold retained. rewrite list_elem_of_In, filter_In, <- list_elem_of_In.
  rewrite list_elem_of_fmap. cbn. rewrite Qle_bool_iff. split.
  - intros [(w' & [= -> ->] & Hw) Hle]. done.
  - intros (Hw & -> & Hle). split; [|done]. by exists w.
Qed.

(** ** Helper facts for the claims *)

Lemma slice_to_subseteq {A : Type} (l : list A) (n : Z) : Py.slice_to l n ⊆ l.
Proof. unfold Py.slice_to. destruct (0 <=? n)%Z; apply subseteq_take. Qed.

Lemma take_sorted (n : nat) (l : list (string * Q)) :
  StronglySorted by_score_desc l → StronglySorted by_score_desc (take n l).
Proof.
  intros Hs. revert n. induction Hs as [|x l Hs IH Hx]; intros [|n]; cbn;
    try constructor; [apply IH|].
  eapply Forall_forall. intros y Hy%subseteq_take.
  by eapply Forall_forall in Hx.
Qed.

Lemma sorted_lookup (l : list (string * Q)) (i j : nat) x y :
  StronglySorted by_score_desc l → (i ≤ j)%nat →
  l !! i = Some x → l !! j = Some y → y.2 <= x.2.
Proof.
  intros Hs. revert i j.
  induction Hs as [|z l Hs IH Hz]; intros [|i] [|j] Hij Hx Hy;
    simplify_eq/=; try lia.
  - apply Qle_refl.
  - eapply Forall_forall in Hz; [exact Hz|]. by eapply list_elem_of_lookup_2.
  - eapply IH; [|done..]. lia.
Qed.

Lemma retained_words word dictionary threshold R :
  (retained word dictionary threshold R).*1 =
  List.filter (λ w, Qle_bool threshold (similarity word w R)) dictionary.
Proof.
  unfold retained. induction dictionary as [|w rest IH]; [done|].
  cbn [map List.filter snd].
  destruct (Qle_bool threshold (similarity word w R)); cbn; by rewrite IH.
Qed.

Lemma are_keys_nearby_add_neighbor c1 c2 k n R :
  are_keys_nearby c1 c2 R = true → are_keys_nearby c1 c2 (add_neighbor k n R) = true.
Proof.
  unfold are_keys_nearby, add_neighbor.
  rewrite !bool_decide_eq_true. intros Hin.
  destruct (decide (k = Py.lower (String c1 EmptyString))) as [->|Hne].
  - rewrite lookup_insert_eq. cbn. apply elem_of_app. by left.
  - by rewrite lookup_insert_ne.
Qed.

Lemma subst_cost_add_neighbor c1 c2 k n R :
  subst_cost c1 c2 (add_neighbor k n R) <= subst_cost c1 c2 R.
Proof.
  unfold subst_cost. case_decide; [lra|].
  destruct (are_keys_nearby c1 c2 R) eqn:Hn.
  - rewrite (are_keys_nearby_add_neighbor _ _ _ _ _ Hn). lra.
  - destruct (are_keys_nearby c1 c2 (add_neighbor k n R)); lra.
Qed.

(** The table after the loops, cell by cell. *)
Lemma fill_table_cell word1 word2 R i j c1 c2 :
  String.get i word1 = Some c1 → String.get j word2 = Some c2 →
  ∃ dp deletion insertion substitution,
    fill_table word1 word2 R = Some dp ∧
    get2 dp i (S j) = Some deletion ∧
    get2 dp (S i) j = Some insertion ∧
    get2 dp i j = Some substitution ∧
    get2 dp (S i) (S j) =
      Some (Py.min3 (deletion + 1) (insertion + 1)
              (substitution + subst_cost c1 c2 R)).
Proof.
  rewrite !get_chars. intros H1 H2.
  destruct (fill_table_known word1 word2 R) as (dp & Hdp & Hs & Hk).
  pose proof (lookup_lt_Some _ _ _ H1). pose proof (lookup_lt_Some _ _ _ H2).
  exists dp. do 3 eexists. split; [done|].
  rewrite !Hk by (done || lia).
  repeat (split; [reflexivity|]). f_equal. by apply cell_value_step.
Qed.

(** * The claims *)

(** ** C1: the cost of a substitution and letter case *)

(** C1, as stated, fails: ['A'] and ['a'] are equal case-insensitively, yet
    the test [c1 == c2] is exact, so their substitution costs 1 under the
    empty keymap and the two one-letter words have similarity 0. *)
Lemma C1_case_insensitive_cost_fails :
  Py.lower_char "A" = Py.lower_char "a" ∧
  subst_cost "A" "a" ∅ == 1 ∧
  ¬ subst_cost "A" "a" ∅ == 0 ∧
  ∃ r, modified_levenshtein_ratio "A" "a" ∅ = Some r ∧ r == 0.
Proof.
  split; [reflexivity|]. split; [reflexivity|].
  split; [intros H; by vm_compute in H|].
  eexists. split; [vm_compute; reflexivity|reflexivity].
Qed.

(** C1 (amended): in the similarity computation the cell [dp[i+1][j+1]] is
    the minimum of the deletion, the insertion and the substitution, whose
    cost for the characters [word1[i]] and [word2[j]] is 0 exactly when the
    two characters are identical; for characters that are already lowercase,
    equality up to case is identity and the cost is 0. *)
Theorem C1_cost_zero_iff_identical word1 word2 R i j c1 c2 :
  String.get i word1 = Some c1 → String.get j word2 = Some c2 →
  (∃ dp deletion insertion substitution,
     fill_table word1 word2 R = Some dp ∧
     get2 dp i (S j) = Some deletion ∧
     get2 dp (S i) j = Some insertion ∧
     get2 dp i j = Some substitution ∧
     get2 dp (S i) (S j) =
       Some (Py.min3 (deletion + 1) (insertion + 1)
               (substitution + subst_cost c1 c2 R))) ∧
  (subst_cost c1 c2 R == 0 ↔ c1 = c2) ∧
  (Py.lower_char c1 = c1 → Py.lower_char c2 = c2 →
   Py.lower_char c1 = Py.lower_char c2 → subst_cost c1 c2 R == 0).
Proof.
  intros H1 H2. split; [by apply fill_table_cell|].
  split; [apply subst_cost_zero|].
  intros Hl1 Hl2 Heq. apply subst_cost_zero. congruence.
Qed.

Lemma C1_cost_zero_iff_identical_witness :
  String.get 1 "help" = Some "e"%char ∧ String.get 1 "hello" = Some "e"%char ∧
  subst_cost "e" "e" {[ "o" := ["i"] ]} == 0.
Proof.
  split; [reflexivity|]. split; [reflexivity|].
  apply (proj1 (proj2 (C1_cost_zero_iff_identical
                         "help" "hello" {[ "o" := ["i"] ]} 1 1 "e" "e"
                         eq_refl eq_refl))).
  reflexivity.
Defined.

(** ** C2: the range of the similarity *)

(** C2: for all strings and every keymap the ratio is computed (no error,
    also for empty strings), lies in [0, 1], and is 1 exactly when the two
    strings are identical; the similarity of two empty strings is 1. *)
Theorem C2_similarity_in_unit_interval word1 word2 R :
  (∃ r, modified_levenshtein_ratio word1 word2 R = Some r ∧
        0 <= r ∧ r <= 1 ∧ (r == 1 ↔ word1 = word2)) ∧
  (∃ r, modified_levenshtein_ratio "" "" R = Some r ∧ r == 1).
Proof.
  split.
  - exists (similarity word1 word2 R).
    split; [apply modified_levenshtein_ratio_eq|].
    pose proof (similarity_bounds word1 word2 R) as [? ?].
    repeat split; auto; apply similarity_one_iff.
  - exists (similarity "" "" R). split; [apply modified_levenshtein_ratio_eq|].
    by apply similarity_one_iff.
Qed.

(** ** C3: the auto-correct decision *)

(** C3: when at least one candidate is retained, the first entry of the
    sorted list has the highest score; autocorrect returns its word as the
    correction if that score is above 0.90 and [None] otherwise, and in both
    cases the list of suggestions. *)
Theorem C3_autocorrect_decision word dictionary threshold max_suggestions
    nearby_keys best_match best_score rest :
  ranked word dictionary threshold nearby_keys =
    Some ((best_match, best_score) :: rest) →
  let suggestions :=
    (Py.slice_to ((best_match, best_score) :: rest) max_suggestions).*1 in
  (∀ w s, (w, s) ∈ rest → s <= best_score) ∧
  (9 # 10 < best_score →
   autocorrect word dictionary threshold max_suggestions nearby_keys =
     Some (Some best_match, suggestions)) ∧
  (best_score <= 9 # 10 →
   autocorrect word dictionary threshold max_suggestions nearby_keys =
     Some (None, suggestions)).
Proof.
  intros Hr suggestions. split; [|split].
  - rewrite ranked_eq in Hr. injection Hr as Hr.
    pose proof (sort_desc_sorted
      (retained (Py.lower word) dictionary threshold (default ∅ nearby_keys)))
      as Hs.
    rewrite Hr in Hs. apply StronglySorted_inv in Hs as [_ Hall].
    intros w s Hin. eapply Forall_forall in Hall; [|exact Hin]. exact Hall.
  - intros Hlt. unfold autocorrect. rewrite Hr. cbn [mbind option_bind].
    destruct (Qle_bool best_score (9 # 10)) eqn:Hle; [|done].
    apply Qle_bool_iff in Hle. lra.
  - intros Hle. unfold autocorrect. rewrite Hr. cbn [mbind option_bind].
    apply Qle_bool_iff in Hle. by rewrite Hle.
Qed.

Lemma C3_autocorrect_decision_witness :
  (ranked "hello" ["hallo"; "hello"] (3 # 4) None =
     Some [("hello", 5 # 5); ("hallo", 4 # 5)] ∧
   autocorrect "hello" ["hallo"; "hello"] (3 # 4) 5 None =
     Some (Some "hello", ["hello"; "hallo"])) ∧
  (ranked "hellp" ["hello"; "help"] (3 # 4) None =
     Some [("hello", 4 # 5); ("help", 4 # 5)] ∧
   autocorrect "hellp" ["hello"; "help"] (3 # 4) 5 None =
     Some (None, ["hello"; "help"])).
Proof.
  split; (split; [by vm_compute|]).
  - apply (C3_autocorrect_decision "hello" ["hallo"; "hello"] (3 # 4) 5 None
             "hello" (5 # 5) [("hallo", 4 # 5)]); by vm_compute.
  - apply (C3_autocorrect_decision "hellp" ["hello"; "help"] (3 # 4) 5 None
             "hello" (4 # 5) [("help", 4 # 5)]); by vm_compute.
Defined.

(** ** C4: the threshold filter *)

(** C4: the loop over the dictionary runs without an error, and an entry
    [w] with its score [s] is in [similarities] exactly when [w] is in the
    dictionary, [s] is its similarity to the lowercased word, and
    [s >= threshold]; a score equal to the threshold is kept. *)
Theorem C4_retained_iff_above_threshold word dictionary threshold nearby_keys :
  ∃ similarities,
    score_entries (Py.lower word) dictionary threshold
      (default ∅ nearby_keys) [] = Some similarities ∧
    ranked word dictionary threshold nearby_keys =
      Some (sort_desc similarities) ∧
    ∀ w s,
      (w, s) ∈ similarities ↔
      w ∈ dictionary ∧
      modified_levenshtein_ratio (Py.lower word) w (default ∅ nearby_keys)
        = Some s ∧
      threshold <= s.
Proof.
  eexists. split; [apply score_entries_eq|]. split; [apply ranked_eq|].
  intros w s. cbn [app]. rewrite elem_of_retained.
  rewrite modified_levenshtein_ratio_eq. split.
  - intros (Hw & -> & Hle). done.
  - intros (Hw & [= <-] & Hle). done.
Qed.

(** The boundary of C4 on the code: "hellp" scores 0.8 against "hello"; it
    is kept with threshold 0.8 and dropped with threshold 0.81. *)
Example threshold_boundary :
  autocorrect "hellp" ["hello"] (8 # 10) 5 None = Some (None, ["hello"]) ∧
  autocorrect "hellp" ["hello"] (81 # 100) 5 None = Some (None, []).
Proof. split; by vm_compute. Qed.

(** ** C5: the list of suggestions *)

(** C5, as stated for every input, fails on a negative [max_suggestions]:
    the slice [similarities[:-1]] drops the last entry only, and the list
    returned has more than [max_suggestions] words. *)
Lemma C5_negative_max_suggestions_fails :
  autocorrect "a" ["a"; "a"] (3 # 4) (-1) None = Some (Some "a", ["a"]) ∧
  ¬ (Z.of_nat (length ["a"]) ≤ -1)%Z.
Proof. split; [by vm_compute|lia]. Qed.

(** C5 (amended): for [max_suggestions >= 0] the suggestions are the words
    of the first [max_suggestions] entries of [similarities] after the sort.
    Before the sort [similarities] holds the retained entries in dictionary
    order, each word with the ratio that [modified_levenshtein_ratio] returns
    for it; the sort permutes them, orders them by non-increasing score and
    keeps entries of equal score in the order they had; so the suggestions
    are ordered by non-increasing similarity and are at most
    [max_suggestions]. *)
Theorem C5_suggestions_top_of_stable_sort word dictionary threshold
    max_suggestions nearby_keys :
  (0 ≤ max_suggestions)%Z →
  let R := default ∅ nearby_keys in
  ∃ best similarities sorted,
    score_entries (Py.lower word) dictionary threshold R [] =
      Some similarities ∧
    ranked word dictionary threshold nearby_keys = Some sorted ∧
    autocorrect word dictionary threshold max_suggestions nearby_keys =
      Some (best, (take (Z.to_nat max_suggestions) sorted).*1) ∧
    similarities.*1 =
      List.filter
        (λ w, match modified_levenshtein_ratio (Py.lower word) w R with
              | Some sim => Qle_bool threshold sim
              | None => false
              end)
        dictionary ∧
    sorted ≡ₚ similarities ∧
    StronglySorted by_score_desc sorted ∧
    (∀ q, with_score q sorted = with_score q similarities) ∧
    StronglySorted by_score_desc (take (Z.to_nat max_suggestions) sorted) ∧
    (Z.of_nat (length (take (Z.to_nat max_suggestions) sorted).*1)
       ≤ max_suggestions)%Z ∧
    Forall (λ p, modified_levenshtein_ratio (Py.lower word) p.1 R = Some p.2)
      similarities ∧
    Forall (λ p, modified_levenshtein_ratio (Py.lower word) p.1 R = Some p.2)
      sorted ∧
    (∀ i j w1 w2 sim1 sim2,
       (i ≤ j)%nat →
       (take (Z.to_nat max_suggestions) sorted).*1 !! i = Some w1 →
       (take (Z.to_nat max_suggestions) sorted).*1 !! j = Some w2 →
       modified_levenshtein_ratio (Py.lower word) w1 R = Some sim1 →
       modified_levenshtein_ratio (Py.lower word) w2 R = Some sim2 →
       sim2 <= sim1).
Proof.
  intros Hms R. set (kept := retained (Py.lower word) dictionary threshold R).
  assert (∃ best, autocorrect word dictionary threshold max_suggestions
                    nearby_keys =
                  Some (best, (take (Z.to_nat max_suggestions)
                                 (sort_desc kept)).*1)) as [best Hbest].
  { unfold autocorrect. rewrite ranked_eq. cbn [mbind option_bind].
    fold R kept. unfold Py.slice_to. rewrite (proj2 (Z.leb_le _ _) Hms).
    destruct (sort_desc kept) as [|[w s] rest].
    - exists None. by rewrite take_nil.
    - destruct (negb (Qle_bool s (9 # 10))); eauto. }
  assert (Hscores : Forall (λ p, modified_levenshtein_ratio (Py.lower word)
                                   p.1 R = Some p.2) kept).
  { apply Forall_forall. intros [w s] (_ & -> & _)%elem_of_retained.
    apply modified_levenshtein_ratio_eq. }
  exists best, kept, (sort_desc kept).
  split; [apply score_entries_eq|]. split; [apply ranked_eq|].
  split; [exact Hbest|]. split.
  { unfold kept. rewrite retained_words. apply filter_ext.
    intros w. by rewrite modified_levenshtein_ratio_eq. }
  split; [apply sort_desc_perm|]. split; [apply sort_desc_sorted|].
  split; [intros q; apply with_score_sort_desc|].
  split; [apply take_sorted, sort_desc_sorted|].
  split; [rewrite length_fmap, length_take; lia|].
  split; [exact Hscores|].
  assert (Hsorted : Forall (λ p, modified_levenshtein_ratio (Py.lower word)
                                   p.1 R = Some p.2) (sort_desc kept))
    by (by rewrite sort_desc_perm).
  split; [exact Hsorted|].
  intros i j w1 w2 sim1 sim2 Hij Hi Hj Hsim1 Hsim2.
  apply list_lookup_fmap_Some in Hi as (p1 & -> & Hp1).
  apply list_lookup_fmap_Some in Hj as (p2 & -> & Hp2).
  assert (Hin : ∀ k p, take (Z.to_nat max_suggestions) (sort_desc kept) !! k
                       = Some p →
                       modified_levenshtein_ratio (Py.lower word) p.1 R
                       = Some p.2).
  { intros k p Hk. eapply Forall_forall in Hsorted; [exact Hsorted|].
    eapply subseteq_take, list_elem_of_lookup_2, Hk. }
  rewrite (Hin _ _ Hp1) in Hsim1. rewrite (Hin _ _ Hp2) in Hsim2.
  injection Hsim1 as <-. injection Hsim2 as <-.
  eapply sorted_lookup; [|exact Hij|exact Hp1|exact Hp2].
  apply take_sorted, sort_desc_sorted.
Qed.

Lemma C5_suggestions_top_of_stable_sort_witness :
  (0 ≤ 1)%Z ∧
  score_entries "hellp" ["hello"; "hallo"; "help"] (3 # 4) ∅ [] =
    Some [("hello", 4 # 5); ("help", 4 # 5)] ∧
  ranked "hellp" ["hello"; "hallo"; "help"] (3 # 4) None =
    Some [("hello", 4 # 5); ("help", 4 # 5)] ∧
  autocorrect "hellp" ["hello"; "hallo"; "help"] (3 # 4) 1 None =
    Some (None, ["hello"]).
Proof.
  split; [lia|].
  destruct (C5_suggestions_top_of_stable_sort
              "hellp" ["hello"; "hallo"; "help"] (3 # 4) 1 None ltac:(lia))
    as (best & similarities & sorted & Hs & Hr & Ha & _).
  assert (Hs' := Hs). vm_compute in Hs'. injection Hs' as <-.
  assert (Hr' := Hr). vm_compute in Hr'. injection Hr' as <-.
  assert (Ha' := Ha). vm_compute in Ha'. injection Ha' as <-.
  split; [exact Hs|]. split; [exact Hr|]. exact Ha.
Defined.

(** The order of equal scores on the code: "hello" and "help" both score 0.8
    against "hellp" and come out in dictionary order, whichever is first. *)
Example ties_keep_dictionary_order :
  autocorrect "hellp" ["hello"; "hallo"; "help"]
    default_threshold default_max_suggestions None
    = Some (None, ["hello"; "help"]) ∧
  autocorrect "hellp" ["help"; "hallo"; "hello"]
    default_threshold default_max_suggestions None
    = Some (None, ["help"; "hello"]).
Proof. split; by vm_compute. Qed.

(** ** C6: the neighbour lookup is directional *)

(** C6: the cost of a substitution is 0.5 exactly when the characters differ
    and the (lowercased) character of the second string is listed under the
    (lowercased) character of the first string; with the asymmetric keymap
    [{'o': ['i']}] the similarity of "o" to "i" is 0.5 and that of "i" to
    "o" is 0. *)
Theorem C6_neighbor_lookup_directional :
  (∀ c1 c2 R,
     subst_cost c1 c2 R == 1 # 2 ↔
     c1 ≠ c2 ∧
     Py.lower (String c2 EmptyString)
       ∈ default [] (R !! Py.lower (String c1 EmptyString))) ∧
  (∃ r1 r2,
     modified_levenshtein_ratio "o" "i" {[ "o" := ["i"] ]} = Some r1 ∧
     modified_levenshtein_ratio "i" "o" {[ "o" := ["i"] ]} = Some r2 ∧
     r1 == 1 # 2 ∧ r2 == 0 ∧ ¬ r1 == r2).
Proof.
  split.
  - intros c1 c2 R. unfold subst_cost, are_keys_nearby.
    case_decide as Heq.
    + split; [intros H; by vm_compute in H|by intros [? _]].
    + case_bool_decide as Hin.
      * split; [done|reflexivity].
      * split; [intros H; by vm_compute in H|by intros [_ ?]].
  - do 2 eexists. split; [by vm_compute|]. split; [by vm_compute|].
    split; [reflexivity|]. split; [reflexivity|]. intros H. by vm_compute in H.
Qed.

(** ** C7: monotonicity in the keymap *)

(** C7: adding a neighbour [n] under a key [k] of the keymap never decreases
    the similarity of two strings. *)
Theorem C7_similarity_monotone_in_keymap word1 word2 R k n :
  ∃ r r',
    modified_levenshtein_ratio word1 word2 R = Some r ∧
    modified_levenshtein_ratio word1 word2 (add_neighbor k n R) = Some r' ∧
    r <= r'.
Proof.
  exists (similarity word1 word2 R), (similarity word1 word2 (add_neighbor k n R)).
  split; [apply modified_levenshtein_ratio_eq|].
  split; [apply modified_levenshtein_ratio_eq|].
  apply similarity_mono. intros c1 c2. apply subst_cost_add_neighbor.
Qed.

(** The scenario of the keymap [{'o': ['i']}]: "hollo" against "hillo" scores
    0.9 with the entry and 0.8 without it. *)
Example hollo_hillo :
  ∃ r r',
    modified_levenshtein_ratio "hollo" "hillo" ∅ = Some r ∧
    modified_levenshtein_ratio "hollo" "hillo" (add_neighbor "o" "i" ∅)
      = Some r' ∧
    r == 8 # 10 ∧ r' == 9 # 10.
Proof. do 2 eexists. repeat split; by vm_compute. Qed.

(** ** C8: no error, and the empty result *)

(** C8: autocorrect returns a result for all inputs; when no entry of the
    dictionary reaches the threshold the result is [(None, [])], and so it
    is for an empty dictionary, and for the empty word against non-empty
    entries with a positive threshold. *)
Theorem C8_autocorrect_total_and_empty_result word dictionary threshold
    max_suggestions nearby_keys :
  (∃ result, autocorrect word dictionary threshold max_suggestions nearby_keys
             = Some result) ∧
  ((∀ w s, w ∈ dictionary →
           modified_levenshtein_ratio (Py.lower word) w (default ∅ nearby_keys)
             = Some s →
           s < threshold) →
   autocorrect word dictionary threshold max_suggestions nearby_keys
     = Some (None, [])) ∧
  autocorrect word [] threshold max_suggestions nearby_keys = Some (None, []) ∧
  (0 < threshold → (∀ w, w ∈ dictionary → w ≠ "") →
   autocorrect "" dictionary threshold max_suggestions nearby_keys
     = Some (None, [])).
Proof.
  assert (Hnone : ∀ word',
    (∀ w, w ∈ dictionary →
          similarity (Py.lower word') w (default ∅ nearby_keys) < threshold) →
    autocorrect word' dictionary threshold max_suggestions nearby_keys
      = Some (None, [])).
  { intros word' Hlow. unfold autocorrect. rewrite ranked_eq.
    cbn [mbind option_bind].
    replace (retained _ _ _ _) with (@nil (string * Q)); [done|].
    symmetry. apply elem_of_nil_inv. intros [w s] (Hw & -> & Hle)%elem_of_retained.
    specialize (Hlow w Hw). lra. }
  split; [|split; [|split]].
  - unfold autocorrect. rewrite ranked_eq. cbn [mbind option_bind].
    destruct (sort_desc _) as [|[w s] rest]; [by eexists|].
    destruct (negb _); by eexists.
  - intros Hlow. apply Hnone. intros w Hw.
    apply (Hlow w _ Hw). apply modified_levenshtein_ratio_eq.
  - done.
  - intros Hthr Hne. apply Hnone. intros w Hw. specialize (Hne w Hw).
    assert (similarity "" w (default ∅ nearby_keys) == 0) as ->; [|done].
    unfold similarity, ratio_of. cbn [Py.lower list_ascii_of_string reverse].
    rewrite edit_cost_nil_l, length_reverse, length_chars.
    cbn [String.length Nat.max]. destruct w as [|c w]; [done|].
    cbn [String.length]. rewrite decide_True by lia.
    field. intros H. by apply of_nat_zero in H.
Qed.

Lemma C8_autocorrect_total_and_empty_result_witness :
  autocorrect "" ["a"; "bb"] (3 # 4) 5 None = Some (None, []).
Proof.
  apply (proj1 (proj2 (C8_autocorrect_total_and_empty_result
                         "" ["a"; "bb"] (3 # 4) 5 None))).
  intros w s Hw Hs.
  apply elem_of_cons in Hw as [->|Hw];
    [|apply elem_of_cons in Hw as [->|Hw]; [|by apply elem_of_nil in Hw]];
    vm_compute in Hs; injection Hs as <-; reflexivity.
Defined.

(** ** C9: the auto-correction and the head of the suggestions *)

(** C9: with [max_suggestions >= 1], an auto-correction returned by
    autocorrect is the first of the suggestions returned with it; with
    [max_suggestions = 0] an auto-correction comes with an empty list. *)
Theorem C9_autocorrection_heads_suggestions :
  (∀ word dictionary threshold max_suggestions nearby_keys best suggestions,
     (1 ≤ max_suggestions)%Z →
     autocorrect word dictionary threshold max_suggestions nearby_keys
       = Some (Some best, suggestions) →
     head suggestions = Some best) ∧
  autocorrect "hello" ["hello"] default_threshold 0 None
    = Some (Some "hello", []).
Proof.
  split; [|by vm_compute].
  intros word dictionary threshold max_suggestions nearby_keys best suggestions
    Hms. unfold autocorrect. rewrite ranked_eq. cbn [mbind option_bind].
  destruct (sort_desc _) as [|[w s] rest]; [done|].
  unfold Py.slice_to. rewrite (proj2 (Z.leb_le 0 max_suggestions)) by lia.
  destruct (Z.to_nat max_suggestions) as [|n] eqn:Hn; [lia|].
  destruct (negb _); intros [= <- <-]. done.
Qed.

Lemma C9_autocorrection_heads_suggestions_witness :
  (1 ≤ 5)%Z ∧
  autocorrect "hello" ["hallo"; "hello"] (3 # 4) 5 None
    = Some (Some "hello", ["hello"; "hallo"]) ∧
  head ["hello"; "hallo"] = Some "hello".
Proof.
  split; [lia|]. split; [by vm_compute|].
  apply (proj1 C9_autocorrection_heads_suggestions
           "hello" ["hallo"; "hello"] (3 # 4) 5%Z None);
    [lia|by vm_compute].
Defined.

(** ** C10: the words returned are dictionary entries *)

(** C10: every suggestion returned by autocorrect, and the auto-correction
    when there is one, is an entry of the dictionary as it was passed. *)
Theorem C10_results_are_dictionary_entries word dictionary threshold
    max_suggestions nearby_keys best suggestions :
  autocorrect word dictionary threshold max_suggestions nearby_keys
    = Some (best, suggestions) →
  (∀ w, w ∈ suggestions → w ∈ dictionary) ∧
  (∀ w, best = Some w → w ∈ dictionary).
Proof.
  unfold autocorrect. rewrite ranked_eq. cbn [mbind option_bind].
  set (kept := retained _ _ _ _).
  assert (Hkept : ∀ p, p ∈ sort_desc kept → p.1 ∈ dictionary).
  { intros [w s]. rewrite sort_desc_perm. by intros (Hw & _)%elem_of_retained. }
  destruct (sort_desc kept) as [|[w0 s0] rest] eqn:Hsorted.
  - intros [= <- <-]. split; [by intros w ?%elem_of_nil|done].
  - assert (Hsugg : ∀ w,
      w ∈ (Py.slice_to ((w0, s0) :: rest) max_suggestions).*1 → w ∈ dictionary).
    { intros w (p & -> & Hp%slice_to_subseteq)%list_elem_of_fmap. by apply Hkept. }
    assert (Hbest : w0 ∈ dictionary) by apply (Hkept (w0, s0)), list_elem_of_here.
    destruct (negb _); intros [= <- <-]; (split; [done|]).
    + by intros w [= <-].
    + done.
Qed.

Lemma C10_results_are_dictionary_entries_witness :
  autocorrect "HELLO" ["Hello"; "hello"] (3 # 4) 5 None
    = Some (Some "hello", ["hello"; "Hello"]) ∧
  (∀ w, w ∈ ["hello"; "Hello"] → w ∈ ["Hello"; "hello"]) ∧
  (∀ w, Some "hello" = Some w → w ∈ ["Hello"; "hello"]).
Proof.
  split; [by vm_compute|].
  apply (C10_results_are_dictionary_entries
           "HELLO" ["Hello"; "hello"] (3 # 4) 5 None).
  by vm_compute.
Defined.

(** * Further properties of the distance engine *)

(** ** Auxiliary facts on the recurrence *)

Lemma of_nat_half n : Py.of_nat n == (2 * Z.of_nat n) # 2.
Proof.
  unfold Py.of_nat, inject_Z, Qeq. cbn [Qnum Qden]. lia.
Qed.

Lemma subst_cost_half c1 c2 R :
  ∃ k : Z, (0 ≤ k ≤ 2)%Z ∧ subst_cost c1 c2 R == k # 2.
Proof.
  destruct (subst_cost_cases c1 c2 R) as [-> | [-> | ->]];
    [exists 0%Z | exists 1%Z | exists 2%Z]; split; (lia || reflexivity).
Qed.

Lemma half_add (k m : Z) : (k # 2) + (m # 2) == (k + m) # 2.
Proof. unfold Qeq, Qplus. cbn [Qnum Qden]. lia. Qed.

Lemma min3_cases x y z :
  Py.min3 x y z == x ∨ Py.min3 x y z == y ∨ Py.min3 x y z == z.
Proof. min_cases; auto using Qeq_refl. Qed.

(** Every value of the recurrence is a non-negative multiple of 1/2. *)
Lemma edit_cost_half R u v :
  ∃ k : Z, (0 ≤ k)%Z ∧ edit_cost R u v == k # 2.
Proof.
  revert u v. apply edit_cost_ind.
  - intros v. exists (2 * Z.of_nat (length v))%Z.
    split; [lia|apply of_nat_half].
  - intros u. rewrite edit_cost_nil_r. exists (2 * Z.of_nat (length u))%Z.
    split; [lia|apply of_nat_half].
  - intros c1 u c2 v (k1 & Hk1 & H1) (k2 & Hk2 & H2) (k3 & Hk3 & H3).
    destruct (subst_cost_half c1 c2 R) as (kc & Hkc & Hc).
    rewrite edit_cost_cons.
    assert (E1 : edit_cost R u (c2 :: v) + 1 == (k1 + 2) # 2)
      by (rewrite H1; unfold Qeq, Qplus; cbn; lia).
    assert (E2 : edit_cost R (c1 :: u) v + 1 == (k2 + 2) # 2)
      by (rewrite H2; unfold Qeq, Qplus; cbn; lia).
    assert (E3 : edit_cost R u v + subst_cost c1 c2 R == (k3 + kc) # 2)
      by (rewrite H3, Hc; apply half_add).
    destruct (min3_cases (edit_cost R u (c2 :: v) + 1)
                (edit_cost R (c1 :: u) v + 1)
                (edit_cost R u v + subst_cost c1 c2 R)) as [Hm|[Hm|Hm]];
      [exists (k1 + 2)%Z | exists (k2 + 2)%Z | exists (k3 + kc)%Z];
      (split; [lia|by rewrite Hm]).
Qed.

Lemma edit_cost_ext R R' u v :
  (∀ c1 c2, subst_cost c1 c2 R = subst_cost c1 c2 R') →
  edit_cost R u v = edit_cost R' u v.
Proof.
  intros Hc. revert u v. apply edit_cost_ind.
  - done.
  - intros u. by rewrite !edit_cost_nil_r.
  - intros c1 u c2 v H1 H2 H3. rewrite !edit_cost_cons. congruence.
Qed.

Lemma edit_cost_sym R u v :
  (∀ c1 c2, subst_cost c1 c2 R == subst_cost c2 c1 R) →
  edit_cost R u v == edit_cost R v u.
Proof.
  intros Hc. revert u v. apply edit_cost_ind.
  - intros v. by rewrite edit_cost_nil_r.
  - intros u. by rewrite edit_cost_nil_r.
  - intros c1 u c2 v H1 H2 H3. rewrite !edit_cost_cons.
    specialize (Hc c1 c2). min_cases.
Qed.

Lemma edit_cost_ge_diff R u v :
  Py.of_nat (length u) - Py.of_nat (length v) <= edit_cost R u v ∧
  Py.of_nat (length v) - Py.of_nat (length u) <= edit_cost R u v.
Proof.
  revert u v. apply edit_cost_ind.
  - intros v. cbn [length edit_cost].
    pose proof (of_nat_nonneg (length v)). change (Py.of_nat 0) with 0.
    split; lra.
  - intros u. rewrite edit_cost_nil_r. cbn [length].
    pose proof (of_nat_nonneg (length u)). change (Py.of_nat 0) with 0.
    split; lra.
  - intros c1 u c2 v [H1 H1'] [H2 H2'] [H3 H3']. rewrite edit_cost_cons.
    cbn [length] in *. rewrite !of_nat_S in *.
    pose proof (subst_cost_bounds c1 c2 R). split; min_cases.
Qed.

(** A keymap at most halves the distance computed without it. *)
Lemma edit_cost_empty_le_double R u v :
  edit_cost ∅ u v <= 2 * edit_cost R u v.
Proof.
  revert u v. apply edit_cost_ind.
  - intros v. cbn [edit_cost]. pose proof (of_nat_nonneg (length v)). lra.
  - intros u. rewrite !edit_cost_nil_r.
    pose proof (of_nat_nonneg (length u)). lra.
  - intros c1 u c2 v H1 H2 H3. rewrite !edit_cost_cons.
    assert (subst_cost c1 c2 ∅ <= 2 * subst_cost c1 c2 R).
    { unfold subst_cost. case_decide; [lra|].
      replace (are_keys_nearby c1 c2 ∅) with false by done.
      destruct (are_keys_nearby c1 c2 R); lra. }
    min_cases.
Qed.

Lemma ratio_of_proper dist dist' len1 len2 :
  dist == dist' → ratio_of dist len1 len2 == ratio_of dist' len1 len2.
Proof. intros H. unfold ratio_of. by rewrite H. Qed.

Lemma ratio_of_comm dist len1 len2 :
  ratio_of dist len1 len2 = ratio_of dist len2 len1.
Proof. unfold ratio_of. by rewrite (Nat.max_comm len1 len2). Qed.

Lemma get2_shaped h w dp i j d :
  shaped h w dp → get2 dp i j = Some d → (i < h ∧ j < w)%nat.
Proof.
  intros [Hh Hw]. unfold get2. destruct (dp !! i) as [row|] eqn:Hrow; [|done].
  cbn. intros Hd. apply lookup_lt_Some in Hd. rewrite (Hw i row Hrow) in Hd.
  apply lookup_lt_Some in Hrow. lia.
Qed.

(** ** X1: the table holds multiples of one half *)

(** X1: the table is filled without an error and every cell of it, the
    final distance included, is a non-negative integer multiple of 1/2 (a
    value that an int or a binary float holds exactly). *)
Theorem X1_table_cells_are_half_integers word1 word2 R :
  ∃ dp,
    fill_table word1 word2 R = Some dp ∧
    (∃ dist, get2 dp (String.length word1) (String.length word2) = Some dist) ∧
    ∀ i j d, get2 dp i j = Some d → ∃ k : Z, (0 ≤ k)%Z ∧ d == k # 2.
Proof.
  destruct (fill_table_known word1 word2 R) as (dp & Hdp & Hs & Hk).
  exists dp. split; [done|]. rewrite !length_chars in Hs, Hk. split.
  - eexists. apply Hk; [lia|lia|done].
  - intros i j d Hd.
    destruct (get2_shaped _ _ _ _ _ _ Hs Hd) as [Hi Hj].
    rewrite Hk in Hd by (done || lia). injection Hd as <-.
    apply edit_cost_half.
Qed.

Lemma X1_table_cells_are_half_integers_witness :
  ∃ k : Z, (0 ≤ k)%Z ∧ 1 # 2 == k # 2.
Proof.
  destruct (X1_table_cells_are_half_integers "o" "i" {[ "o" := ["i"] ]})
    as (dp & Hdp & _ & Hcells).
  vm_compute in Hdp. injection Hdp as <-.
  exact (Hcells 1%nat 1%nat (1 # 2) eq_refl).
Defined.

(** ** X2: symmetry under a symmetric keymap *)

(** X2: when the keymap is symmetric (a key lists a neighbour exactly when
    the neighbour lists the key), and so for the empty keymap that
    autocorrect uses by default, the similarity of two strings does not
    depend on their order. *)
Theorem X2_similarity_symmetric word1 word2 R :
  (∀ c1 c2, are_keys_nearby c1 c2 R = are_keys_nearby c2 c1 R) →
  ∃ r1 r2,
    modified_levenshtein_ratio word1 word2 R = Some r1 ∧
    modified_levenshtein_ratio word2 word1 R = Some r2 ∧
    r1 == r2.
Proof.
  intros Hsym. exists (similarity word1 word2 R), (similarity word2 word1 R).
  split; [apply modified_levenshtein_ratio_eq|].
  split; [apply modified_levenshtein_ratio_eq|].
  unfold similarity. rewrite (ratio_of_comm _ (String.length word2)).
  apply ratio_of_proper, edit_cost_sym.
  intros c1 c2. unfold subst_cost. rewrite (Hsym c1 c2).
  destruct (decide (c1 = c2)) as [->|Hne].
  - by rewrite decide_True.
  - by rewrite decide_False by congruence.
Qed.

Lemma X2_similarity_symmetric_witness :
  ∃ r1 r2,
    modified_levenshtein_ratio "hollo" "hill" ∅ = Some r1 ∧
    modified_levenshtein_ratio "hill" "hollo" ∅ = Some r2 ∧
    r1 == r2.
Proof.
  apply (X2_similarity_symmetric "hollo" "hill" ∅).
  intros c1 c2. reflexivity.
Defined.

(** ** X3: strings of different lengths *)

(** The last cell of the table holds the distance of the recurrence. *)
Lemma fill_table_distance word1 word2 R :
  ∃ dp,
    fill_table word1 word2 R = Some dp ∧
    get2 dp (String.length word1) (String.length word2) =
      Some (edit_cost R (reverse (list_ascii_of_string word1))
              (reverse (list_ascii_of_string word2))).
Proof.
  destruct (fill_table_known word1 word2 R) as (dp & Hdp & Hs & Hk).
  exists dp. split; [done|].
  rewrite <- cell_value_last, !length_chars.
  apply Hk; rewrite ?length_chars; (done || lia).
Qed.

(** X3: the distance [dist = dp[len1][len2]] that the three loops leave in
    the last cell of the table lies between the difference of the two lengths
    and the longer length, whatever the keymap: a string much shorter or
    longer than the word is far from it. *)
Theorem X3_distance_bounded_by_lengths word1 word2 R :
  ∃ dp dist,
    fill_table word1 word2 R = Some dp ∧
    get2 dp (String.length word1) (String.length word2) = Some dist ∧
    Py.of_nat (Nat.max (String.length word1) (String.length word2)
               - Nat.min (String.length word1) (String.length word2)) <= dist ∧
    dist <= Py.of_nat (Nat.max (String.length word1) (String.length word2)).
Proof.
  destruct (fill_table_distance word1 word2 R) as (dp & Hdp & Hdist).
  exists dp. eexists. split; [done|]. split; [exact Hdist|].
  set (len1 := String.length word1). set (len2 := String.length word2).
  pose proof (edit_cost_ge_diff R (reverse (list_ascii_of_string word1))
                (reverse (list_ascii_of_string word2))) as [Hd1 Hd2].
  pose proof (edit_cost_le_max R (reverse (list_ascii_of_string word1))
                (reverse (list_ascii_of_string word2))) as Hmax.
  rewrite !length_reverse, !length_chars in Hd1, Hd2, Hmax.
  fold len1 len2 in Hd1, Hd2, Hmax. split; [|exact Hmax].
  pose proof (edit_cost_nonneg R (reverse (list_ascii_of_string word1))
                (reverse (list_ascii_of_string word2))) as H0.
  set (d := edit_cost _ _ _) in *.
  assert (Hsub : ∀ n m, (m ≤ n)%nat →
                        Py.of_nat (n - m) == Py.of_nat n - Py.of_nat m).
  { intros n m Hle. unfold Py.of_nat. rewrite Nat2Z.inj_sub by done.
    unfold Zminus. by rewrite inject_Z_plus, inject_Z_opp. }
  destruct (Nat.max_spec len1 len2) as [[? ->]|[? ->]];
    [rewrite Nat.min_l by lia|rewrite Nat.min_r by lia];
    rewrite Hsub by lia; lra.
Qed.

Lemma X3_distance_bounded_by_lengths_witness :
  ∃ dp,
    fill_table "hel" "helicopter" ∅ = Some dp ∧
    get2 dp 3 10 = Some 7 ∧
    Py.of_nat (10 - 3) <= 7 ∧ 7 <= Py.of_nat 10.
Proof.
  destruct (X3_distance_bounded_by_lengths "hel" "helicopter" ∅)
    as (dp & dist & Hdp & Hdist & Hlo & Hhi).
  assert (Hdp' := Hdp). vm_compute in Hdp'. injection Hdp' as <-.
  assert (Hdist' := Hdist). vm_compute in Hdist'. injection Hdist' as <-.
  eexists. split; [exact Hdp|]. split; [exact Hdist|].
  split; [exact Hlo|exact Hhi].
Defined.

(** Both bounds are reached: the distance of "hel" to "helicopter" is the
    difference of the lengths, that of "abc" to "xyz" the longer length. *)
Example distance_by_length :
  (dp ← fill_table "hel" "helicopter" ∅; get2 dp 3 10) = Some 7 ∧
  (dp ← fill_table "abc" "xyz" ∅; get2 dp 3 3) = Some 3.
Proof. split; by vm_compute. Qed.

(** * Further properties of the ranker *)

(** ** Auxiliary facts on the ranking *)

Lemma autocorrect_eq word dictionary threshold max_suggestions nearby_keys :
  autocorrect word dictionary threshold max_suggestions nearby_keys =
  match sort_desc (retained (Py.lower word) dictionary threshold
                     (default ∅ nearby_keys)) with
  | [] => Some (None, [])
  | (best_match, best_score) :: rest =>
      Some (if negb (Qle_bool best_score (9 # 10)) then Some best_match
            else None,
            (Py.slice_to ((best_match, best_score) :: rest)
               max_suggestions).*1)
  end.
Proof.
  unfold autocorrect. rewrite ranked_eq. cbn [mbind option_bind].
  destruct (sort_desc _) as [|[w s] rest]; [done|]. by destruct (negb _).
Qed.

Lemma autocorrect_below_threshold word dictionary threshold max_suggestions
    nearby_keys :
  (∀ w, w ∈ dictionary →
        similarity (Py.lower word) w (default ∅ nearby_keys) < threshold) →
  autocorrect word dictionary threshold max_suggestions nearby_keys
    = Some (None, []).
Proof.
  intros Hlow. rewrite autocorrect_eq.
  replace (retained _ _ _ _) with (@nil (string * Q)); [done|].
  symmetry. apply elem_of_nil_inv. intros [w s] (Hw & -> & Hle)%elem_of_retained.
  specialize (Hlow w Hw). lra.
Qed.

Lemma slice_to_all {A : Type} (l : list A) (n : Z) :
  (Z.of_nat (length l) ≤ n)%Z → Py.slice_to l n = l.
Proof.
  intros Hn. unfold Py.slice_to. rewrite (proj2 (Z.leb_le 0 n)) by lia.
  apply take_ge. lia.
Qed.

Lemma length_slice_to {A : Type} (l : list A) (n : Z) :
  Z.of_nat (length (Py.slice_to l n)) =
  if (0 <=? n)%Z then Z.min n (Z.of_nat (length l))
  else Z.max 0 (Z.of_nat (length l) + n).
Proof.
  unfold Py.slice_to. destruct (0 <=? n)%Z eqn:Hn; rewrite length_take; lia.
Qed.

Lemma lower_char_idemp c : Py.lower_char (Py.lower_char c) = Py.lower_char c.
Proof. by destruct c as [[] [] [] [] [] [] [] []]. Qed.

Lemma lower_idemp s : Py.lower (Py.lower s) = Py.lower s.
Proof.
  induction s as [|c s IH]; [done|]. cbn. by rewrite lower_char_idemp, IH.
Qed.

Lemma length_lower s : String.length (Py.lower s) = String.length s.
Proof. induction s as [|c s IH]; cbn; [done|]. by rewrite IH. Qed.

Lemma are_keys_nearby_insert_dead c1 c2 k v R :
  ¬ single_lower k →
  are_keys_nearby c1 c2 (<[k := v]> R) = are_keys_nearby c1 c2 R.
Proof.
  intros Hk. unfold are_keys_nearby. rewrite lookup_insert_ne; [done|].
  intros ->. apply Hk. split; [done|apply lower_idemp].
Qed.

Lemma are_keys_nearby_add_dead c1 c2 k n R :
  ¬ single_lower n →
  are_keys_nearby c1 c2 (add_neighbor k n R) = are_keys_nearby c1 c2 R.
Proof.
  intros Hn. unfold are_keys_nearby, add_neighbor.
  destruct (decide (k = Py.lower (String c1 EmptyString))) as [->|Hne].
  - rewrite lookup_insert_eq. cbn.
    apply bool_decide_ext. rewrite elem_of_app, list_elem_of_singleton.
    split; [|by left]. intros [?|Heq]; [done|]. exfalso. apply Hn.
    rewrite <- Heq. split; [done|]. cbn. by rewrite lower_char_idemp.
  - by rewrite lookup_insert_ne.
Qed.

Lemma similarity_ext word w R R' :
  (∀ c1 c2, are_keys_nearby c1 c2 R = are_keys_nearby c1 c2 R') →
  similarity word w R = similarity word w R'.
Proof.
  intros H. unfold similarity. f_equal. apply edit_cost_ext.
  intros c1 c2. unfold subst_cost. by rewrite H.
Qed.

(** ** X4: a word of the dictionary is corrected to itself *)

(** An entry equal to the word is ranked first, with a score above 0.90. *)
Lemma known_word_ranks_first lw dictionary threshold R :
  lw ∈ dictionary → threshold <= 1 →
  ∃ s rest,
    sort_desc (retained lw dictionary threshold R) = (lw, s) :: rest ∧
    9 # 10 < s.
Proof.
  intros Hin Hthr. set (kept := retained lw dictionary threshold R).
  assert (Hone : similarity lw lw R == 1) by by apply similarity_one_iff.
  assert (Hlw : (lw, similarity lw lw R) ∈ sort_desc kept).
  { rewrite sort_desc_perm. apply elem_of_retained. repeat split; [done|lra]. }
  pose proof (sort_desc_sorted kept) as Hsorted.
  assert (Hkept : ∀ p, p ∈ sort_desc kept → p.2 = similarity lw p.1 R).
  { intros [w s]. rewrite sort_desc_perm. by intros (_ & -> & _)%elem_of_retained. }
  destruct (sort_desc kept) as [|[w0 s0] rest]; [by apply elem_of_nil in Hlw|].
  assert (Hs0 : 1 <= s0).
  { apply elem_of_cons in Hlw as [[= <- <-]|Hrest]; [lra|].
    apply StronglySorted_inv in Hsorted as [_ Hall].
    eapply Forall_forall in Hall; [|exact Hrest].
    unfold by_score_desc in Hall. cbn in Hall. lra. }
  pose proof (Hkept (w0, s0) ltac:(left)) as Hs. cbn in Hs.
  pose proof (similarity_bounds lw w0 R) as [_ Hle1].
  assert (lw = w0) as <-.
  { apply (similarity_one_iff lw w0 R). rewrite <- Hs in Hle1 |- *. lra. }
  exists s0, rest. split; [done|lra].
Qed.

(** X4: when the lowercased input word is an entry of the dictionary and the
    threshold is at most 1, autocorrect returns that entry as the
    auto-correction, at the head of the suggestions if
    [max_suggestions >= 1]. *)
Theorem X4_known_word_is_autocorrected word dictionary threshold
    max_suggestions nearby_keys :
  Py.lower word ∈ dictionary → threshold <= 1 →
  ∃ suggestions,
    autocorrect word dictionary threshold max_suggestions nearby_keys
      = Some (Some (Py.lower word), suggestions) ∧
    ((1 ≤ max_suggestions)%Z → head suggestions = Some (Py.lower word)).
Proof.
  intros Hin Hthr. rewrite autocorrect_eq.
  destruct (known_word_ranks_first (Py.lower word) dictionary threshold
              (default ∅ nearby_keys) Hin Hthr) as (s & rest & -> & Hs).
  destruct (Qle_bool s (9 # 10)) eqn:Hle; [apply Qle_bool_iff in Hle; lra|].
  eexists. split; [done|]. intros Hms. unfold Py.slice_to.
  rewrite (proj2 (Z.leb_le 0 max_suggestions)) by lia.
  destruct (Z.to_nat max_suggestions) eqn:Hn; [lia|done].
Qed.

Lemma X4_known_word_is_autocorrected_witness :
  ∃ suggestions,
    autocorrect "HeLLo" ["hallo"; "hello"] (3 # 4) 5 None
      = Some (Some "hello", suggestions) ∧
    ((1 ≤ 5)%Z → head suggestions = Some "hello").
Proof.
  apply (X4_known_word_is_autocorrected
           "HeLLo" ["hallo"; "hello"] (3 # 4) 5 None).
  - vm_compute. apply list_elem_of_further, list_elem_of_here.
  - by vm_compute.
Defined.

(** ** X5: thresholds outside [0, 1] *)

(** X5: with a threshold above 1 nothing is ever suggested; with a threshold
    of 0 or less and [max_suggestions] at least the size of the dictionary,
    the suggestions are the whole dictionary, reordered. *)
Theorem X5_extreme_thresholds word dictionary threshold max_suggestions
    nearby_keys :
  (1 < threshold →
   autocorrect word dictionary threshold max_suggestions nearby_keys
     = Some (None, [])) ∧
  (threshold <= 0 → (Z.of_nat (length dictionary) ≤ max_suggestions)%Z →
   ∃ best suggestions,
     autocorrect word dictionary threshold max_suggestions nearby_keys
       = Some (best, suggestions) ∧
     suggestions ≡ₚ dictionary).
Proof.
  split.
  - intros Hthr. apply autocorrect_below_threshold. intros w _.
    pose proof (similarity_bounds (Py.lower word) w (default ∅ nearby_keys)).
    lra.
  - intros Hthr Hms. rewrite autocorrect_eq.
    set (kept := retained _ _ _ _).
    assert (Hwords : kept.*1 = dictionary).
    { unfold kept. rewrite retained_words.
      induction dictionary as [|w rest IH]; [done|]. cbn [List.filter].
      pose proof (similarity_bounds (Py.lower word) w (default ∅ nearby_keys)).
      replace (Qle_bool threshold _) with true
        by (symmetry; apply Qle_bool_iff; lra).
      f_equal. apply IH. cbn [length] in Hms. lia. }
    assert (Hlen : length (sort_desc kept) = length dictionary).
    { by rewrite sort_desc_perm, <- Hwords, length_fmap. }
    pose proof (sort_desc_perm kept) as Hperm.
    destruct (sort_desc kept) as [|[w s] rest] eqn:Hsorted.
    + exists None, []. split; [done|].
      by rewrite <- Hwords, <- Hperm.
    + do 2 eexists. split; [done|].
      rewrite slice_to_all by lia. by rewrite Hperm, Hwords.
Qed.

Lemma X5_extreme_thresholds_witness :
  autocorrect "hello" ["hello"; "help"] (11 # 10) 5 None = Some (None, []) ∧
  ∃ best suggestions,
    autocorrect "hello" ["zzzzz"; "help"] 0 2 None = Some (best, suggestions) ∧
    suggestions ≡ₚ ["zzzzz"; "help"].
Proof.
  split.
  - apply (proj1 (X5_extreme_thresholds "hello" ["hello"; "help"] (11 # 10)
                    5 None)). reflexivity.
  - apply (proj2 (X5_extreme_thresholds "hello" ["zzzzz"; "help"] 0 2 None)).
    + by vm_compute.
    + by vm_compute.
Defined.

(** ** X6: the number of suggestions *)

(** X6: with [n] entries retained, autocorrect returns
    [min(max_suggestions, n)] suggestions when [max_suggestions >= 0], and
    [max(0, n + max_suggestions)] when it is negative (the slice then drops
    entries from the end of the ranking). *)
Theorem X6_number_of_suggestions word dictionary threshold max_suggestions
    nearby_keys :
  ∃ similarities best suggestions,
    score_entries (Py.lower word) dictionary threshold
      (default ∅ nearby_keys) [] = Some similarities ∧
    autocorrect word dictionary threshold max_suggestions nearby_keys
      = Some (best, suggestions) ∧
    Z.of_nat (length suggestions) =
      if (0 <=? max_suggestions)%Z
      then Z.min max_suggestions (Z.of_nat (length similarities))
      else Z.max 0 (Z.of_nat (length similarities) + max_suggestions).
Proof.
  set (kept := retained (Py.lower word) dictionary threshold
                 (default ∅ nearby_keys)).
  exists kept. rewrite score_entries_eq, autocorrect_eq. cbn [app]. fold kept.
  assert (Hlen : length (sort_desc kept) = length kept)
    by by rewrite sort_desc_perm.
  destruct (sort_desc kept) as [|[w s] rest].
  - exists None, []. repeat split. rewrite <- Hlen. cbn.
    destruct (0 <=? max_suggestions)%Z eqn:?; lia.
  - do 2 eexists. repeat split.
    by rewrite length_fmap, length_slice_to, Hlen.
Qed.

(** ** X7: keymap entries that are never consulted *)

(** X7: an entry of the keymap under a key that is not a single lowercase
    character, and a neighbour that is not a single lowercase character,
    change no similarity. *)
Theorem X7_dead_keymap_entries word1 word2 R k v n :
  (¬ single_lower k →
   modified_levenshtein_ratio word1 word2 (<[k := v]> R)
     = modified_levenshtein_ratio word1 word2 R) ∧
  (¬ single_lower n →
   modified_levenshtein_ratio word1 word2 (add_neighbor k n R)
     = modified_levenshtein_ratio word1 word2 R).
Proof.
  split; intros Hdead; rewrite !modified_levenshtein_ratio_eq; f_equal;
    apply similarity_ext; intros c1 c2.
  - by apply are_keys_nearby_insert_dead.
  - by apply are_keys_nearby_add_dead.
Qed.

Lemma X7_dead_keymap_entries_witness :
  modified_levenshtein_ratio "hollo" "hillo" (<["O" := ["i"]]> ∅)
    = modified_levenshtein_ratio "hollo" "hillo" ∅ ∧
  modified_levenshtein_ratio "hollo" "hillo" (add_neighbor "o" "i " ∅)
    = modified_levenshtein_ratio "hollo" "hillo" ∅.
Proof.
  split.
  - apply (proj1 (X7_dead_keymap_entries "hollo" "hillo" ∅ "O" ["i"] "")).
    intros [_ H]. by vm_compute in H.
  - apply (proj2 (X7_dead_keymap_entries "hollo" "hillo" ∅ "o" [] "i ")).
    intros [H _]. by vm_compute in H.
Defined.

(** ** X8: how much a keymap can raise a similarity *)

(** X8: for any keymap the distance [d] in the last cell of the table is at
    most the distance [d0] under the empty keymap and at least half of it
    (the discount at most halves a distance), and the ratio is at least the
    ratio under the empty keymap. *)
Theorem X8_keymap_discount_bounds word1 word2 R :
  ∃ dp0 dp d0 d r0 r,
    fill_table word1 word2 ∅ = Some dp0 ∧
    get2 dp0 (String.length word1) (String.length word2) = Some d0 ∧
    fill_table word1 word2 R = Some dp ∧
    get2 dp (String.length word1) (String.length word2) = Some d ∧
    d <= d0 ∧ d0 <= 2 * d ∧
    modified_levenshtein_ratio word1 word2 ∅ = Some r0 ∧
    modified_levenshtein_ratio word1 word2 R = Some r ∧
    r0 <= r.
Proof.
  assert (Hcost : ∀ c1 c2, subst_cost c1 c2 R <= subst_cost c1 c2 ∅).
  { intros c1 c2. unfold subst_cost.
    case_decide; [lra|]. replace (are_keys_nearby c1 c2 ∅) with false by done.
    destruct (are_keys_nearby c1 c2 R); lra. }
  destruct (fill_table_distance word1 word2 ∅) as (dp0 & Hdp0 & Hd0).
  destruct (fill_table_distance word1 word2 R) as (dp & Hdp & Hd).
  exists dp0, dp. do 4 eexists.
  split; [exact Hdp0|]. split; [exact Hd0|].
  split; [exact Hdp|]. split; [exact Hd|].
  split; [by apply edit_cost_mono|].
  split; [apply edit_cost_empty_le_double|].
  split; [apply modified_levenshtein_ratio_eq|].
  split; [apply modified_levenshtein_ratio_eq|].
  by apply similarity_mono.
Qed.

Lemma X8_keymap_discount_bounds_witness :
  ∃ dp0 dp r0 r,
    fill_table "hollo" "hillo" ∅ = Some dp0 ∧ get2 dp0 5 5 = Some 1 ∧
    fill_table "hollo" "hillo" {[ "o" := ["i"] ]} = Some dp ∧
    get2 dp 5 5 = Some (1 # 2) ∧
    (1 # 2) <= 1 ∧ 1 <= 2 * (1 # 2) ∧
    modified_levenshtein_ratio "hollo" "hillo" ∅ = Some r0 ∧
    modified_levenshtein_ratio "hollo" "hillo" {[ "o" := ["i"] ]} = Some r ∧
    r0 <= r.
Proof.
  destruct (X8_keymap_discount_bounds "hollo" "hillo" {[ "o" := ["i"] ]})
    as (dp0 & dp & d0 & d & r0 & r &
        Hdp0 & Hd0 & Hdp & Hd & Hle & Hdouble & Hr0 & Hr & Hmono).
  assert (Hdp0' := Hdp0). vm_compute in Hdp0'. injection Hdp0' as <-.
  assert (Hdp' := Hdp). vm_compute in Hdp'. injection Hdp' as <-.
  assert (Hd0' := Hd0). vm_compute in Hd0'. injection Hd0' as <-.
  assert (Hd' := Hd). vm_compute in Hd'. injection Hd' as <-.
  do 2 eexists. exists r0, r. split; [exact Hdp0|]. split; [exact Hd0|].
  split; [exact Hdp|]. split; [exact Hd|]. split; [exact Hle|].
  split; [exact Hdouble|]. split; [exact Hr0|]. split; [exact Hr|].
  exact Hmono.
Defined.

(** The bound is reached: with [o] next to [i], the distance of "o" to "i"
    is halved. *)
Example discount_halves :
  (dp ← fill_table "o" "i" ∅; get2 dp 1 1) = Some 1 ∧
  (dp ← fill_table "o" "i" {[ "o" := ["i"] ]}; get2 dp 1 1) = Some (1 # 2).
Proof. split; by vm_compute. Qed.

(** ** X9: raising the threshold *)

Lemma insert_desc_head x l :
  Forall (λ y, y.2 <= x.2) l → insert_desc x l = x :: l.
Proof.
  destruct l as [|y l]; [done|]. intros [Hy _]%Forall_cons. cbn.
  apply Qle_bool_iff in Hy. by rewrite Hy.
Qed.

Lemma filter_insert_desc t x l :
  StronglySorted by_score_desc l →
  List.filter (λ p, Qle_bool t p.2) (insert_desc x l) =
  if Qle_bool t x.2
  then insert_desc x (List.filter (λ p, Qle_bool t p.2) l)
  else List.filter (λ p, Qle_bool t p.2) l.
Proof.
  induction 1 as [|y l Hs IH Hy].
  - cbn. by destruct (Qle_bool t x.2).
  - cbn [insert_desc]. destruct (Qle_bool y.2 x.2) eqn:Hyx.
    + cbn [List.filter]. destruct (Qle_bool t x.2) eqn:Hx; [|done].
      symmetry.
      apply (insert_desc_head x (List.filter (λ p, Qle_bool t p.2) (y :: l))).
      apply Forall_forall. intros z [Hz _]%list_elem_of_In%filter_In.
      apply Qle_bool_iff in Hyx. destruct Hz as [<-|Hz]; [done|].
      apply list_elem_of_In in Hz. eapply Forall_forall in Hy; [|exact Hz].
      unfold by_score_desc in Hy. lra.
    + cbn [List.filter]. rewrite IH.
      destruct (Qle_bool t x.2) eqn:Hx.
      * assert (Qle_bool t y.2 = true) as ->.
        { apply Qle_bool_iff. apply Qle_bool_iff in Hx.
          destruct (Qlt_le_dec x.2 y.2) as [?|Hle]; [lra|].
          apply Qle_bool_iff in Hle. congruence. }
        cbn [insert_desc]. by rewrite Hyx.
      * done.
Qed.

Lemma filter_sort_desc t l :
  List.filter (λ p, Qle_bool t p.2) (sort_desc l) =
  sort_desc (List.filter (λ p, Qle_bool t p.2) l).
Proof.
  induction l as [|x l IH]; [done|]. cbn [sort_desc List.filter].
  rewrite filter_insert_desc by apply sort_desc_sorted.
  destruct (Qle_bool t x.2); cbn [sort_desc]; by rewrite IH.
Qed.

(** In a list sorted by descending score the entries of score at least [t]
    are a prefix. *)
Lemma filter_sorted_prefix t l :
  StronglySorted by_score_desc l →
  List.filter (λ p, Qle_bool t p.2) l `prefix_of` l.
Proof.
  induction 1 as [|x l Hs IH Hx]; [done|]. cbn [List.filter].
  destruct (Qle_bool t x.2) eqn:Htx.
  - by apply prefix_cons.
  - replace (List.filter _ l) with (@nil (string * Q)); [apply prefix_nil|].
    symmetry. apply elem_of_nil_inv.
    intros z [Hz Htz]%list_elem_of_In%filter_In. apply list_elem_of_In in Hz.
    eapply Forall_forall in Hx; [|exact Hz]. unfold by_score_desc in Hx.
    apply Qle_bool_iff in Htz.
    assert (Qle_bool t x.2 = true); [|congruence]. apply Qle_bool_iff. lra.
Qed.

Lemma retained_filter word dictionary t t' R :
  t <= t' →
  retained word dictionary t' R =
  List.filter (λ p, Qle_bool t' p.2) (retained word dictionary t R).
Proof.
  intros Ht. unfold retained.
  induction dictionary as [|w rest IH]; [done|]. cbn [map List.filter snd].
  destruct (Qle_bool t' (similarity word w R)) eqn:H'.
  - assert (Qle_bool t (similarity word w R) = true) as ->.
    { apply Qle_bool_iff. apply Qle_bool_iff in H'. lra. }
    cbn [List.filter snd]. rewrite H'. by rewrite IH.
  - destruct (Qle_bool t (similarity word w R)); [|done].
    cbn [List.filter snd]. by rewrite H'.
Qed.

(** X9: raising the threshold only cuts the ranking short: for
    [max_suggestions >= 0] the suggestions under the higher threshold are a
    prefix of those under the lower one, and an auto-correction under the
    higher threshold is the auto-correction under the lower one. *)
Theorem X9_higher_threshold_gives_prefix word dictionary threshold threshold'
    max_suggestions nearby_keys :
  threshold <= threshold' → (0 ≤ max_suggestions)%Z →
  ∃ best suggestions best' suggestions',
    autocorrect word dictionary threshold max_suggestions nearby_keys
      = Some (best, suggestions) ∧
    autocorrect word dictionary threshold' max_suggestions nearby_keys
      = Some (best', suggestions') ∧
    suggestions' `prefix_of` suggestions ∧
    (∀ w, best' = Some w → best = Some w).
Proof.
  intros Hthr Hms. rewrite !autocorrect_eq.
  rewrite (retained_filter _ _ threshold threshold') by done.
  rewrite <- filter_sort_desc.
  set (sorted := sort_desc (retained _ _ threshold _)).
  destruct (filter_sorted_prefix threshold' sorted) as [tail Htail];
    [apply sort_desc_sorted|].
  set (sorted' := List.filter _ sorted) in *.
  assert (Hpre : ∀ l l' : list (string * Q), l = (l' ++ tail)%list →
            (Py.slice_to l' max_suggestions).*1
              `prefix_of` (Py.slice_to l max_suggestions).*1).
  { intros l l' ->. unfold Py.slice_to.
    rewrite (proj2 (Z.leb_le 0 max_suggestions)) by lia.
    rewrite take_app, fmap_app. by apply prefix_app_r. }
  destruct sorted' as [|[w' s'] rest'].
  - destruct sorted as [|[w s] rest]; do 4 eexists;
      (split; [done|]); (split; [done|]); (split; [apply prefix_nil|done]).
  - destruct sorted as [|[w s] rest]; [done|].
    cbn [app] in Htail. injection Htail as -> -> ->.
    do 4 eexists. split; [done|]. split; [done|]. split.
    + by apply Hpre.
    + intros w0. by destruct (negb _).
Qed.

Lemma X9_higher_threshold_gives_prefix_witness :
  ∃ best suggestions best' suggestions',
    autocorrect "hellp" ["hello"; "hallo"; "help"] (1 # 2) 5 None
      = Some (best, suggestions) ∧
    autocorrect "hellp" ["hello"; "hallo"; "help"] (3 # 4) 5 None
      = Some (best', suggestions') ∧
    suggestions' `prefix_of` suggestions ∧
    (∀ w, best' = Some w → best = Some w).
Proof.
  apply (X9_higher_threshold_gives_prefix
           "hellp" ["hello"; "hallo"; "help"] (1 # 2) (3 # 4) 5 None).
  - by vm_compute.
  - lia.
Defined.

(** * The loaders *)

(** ** Facts on the text primitives *)

Lemma is_space_lower_char c :
  PyText.is_space (Py.lower_char c) = PyText.is_space c.
Proof. by destruct c as [[] [] [] [] [] [] [] []]. Qed.

Lemma lower_empty s : Py.lower s = EmptyString ↔ s = EmptyString.
Proof. by destruct s. Qed.

Lemma lower_lstrip s : Py.lower (PyText.lstrip s) = PyText.lstrip (Py.lower s).
Proof.
  induction s as [|c s IH]; [done|]. cbn. rewrite is_space_lower_char.
  by destruct (PyText.is_space c).
Qed.

Lemma lower_rstrip s : Py.lower (PyText.rstrip s) = PyText.rstrip (Py.lower s).
Proof.
  induction s as [|c s IH]; [done|]. cbn. rewrite <- IH, is_space_lower_char.
  destruct (PyText.rstrip s); cbn; [|done]. by destruct (PyText.is_space c).
Qed.

Lemma lower_strip s : Py.lower (PyText.strip s) = PyText.strip (Py.lower s).
Proof. unfold PyText.strip. by rewrite lower_rstrip, lower_lstrip. Qed.

Lemma lstrip_rstrip s :
  PyText.lstrip (PyText.rstrip s) = PyText.rstrip (PyText.lstrip s).
Proof.
  induction s as [|c s IH]; [done|]. cbn.
  destruct (PyText.is_space c) eqn:Hc.
  - rewrite <- IH. destruct (PyText.rstrip s); [done|]. cbn. by rewrite Hc.
  - cbn. destruct (PyText.rstrip s); cbn; by rewrite Hc.
Qed.

Lemma lstrip_idemp s : PyText.lstrip (PyText.lstrip s) = PyText.lstrip s.
Proof.
  induction s as [|c s IH]; [done|]. cbn.
  destruct (PyText.is_space c) eqn:Hc; [done|]. cbn. by rewrite Hc.
Qed.

Lemma rstrip_cons c s :
  PyText.rstrip (String c s) =
  match PyText.rstrip s with
  | EmptyString =>
      if PyText.is_space c then EmptyString else String c EmptyString
  | r => String c r
  end.
Proof. reflexivity. Qed.

Lemma rstrip_idemp s : PyText.rstrip (PyText.rstrip s) = PyText.rstrip s.
Proof.
  induction s as [|c s IH]; [done|]. rewrite rstrip_cons.
  destruct (PyText.rstrip s) as [|c' r] eqn:Hr.
  - destruct (PyText.is_space c) eqn:Hc; [done|]. cbn. by rewrite Hc.
  - by rewrite rstrip_cons, IH.
Qed.

Lemma strip_idemp s : PyText.strip (PyText.strip s) = PyText.strip s.
Proof.
  unfold PyText.strip.
  by rewrite lstrip_rstrip, lstrip_idemp, rstrip_idemp.
Qed.

(** A word as [load_wordlist] and [load_keymap_conf] store it: not empty,
    without surrounding whitespace, in lowercase. *)
Lemma lower_strip_normal s :
  let w := Py.lower (PyText.strip s) in
  PyText.strip w = w ∧ Py.lower w = w.
Proof.
  cbn. split; [|apply lower_idemp].
  by rewrite <- lower_strip, strip_idemp.
Qed.


(** ** X10: what load_wordlist returns *)

Lemma wordlist_lines_eq lines words :
  wordlist_lines lines words =
  (words ++ List.filter (λ w, bool_decide (w ≠ EmptyString))
             (map (λ line, Py.lower (PyText.strip line)) lines))%list.
Proof.
  revert words. induction lines as [|line rest IH]; intros words.
  - cbn. by rewrite app_nil_r.
  - cbn [wordlist_lines map List.filter]. cbn zeta. rewrite !IH.
    case_decide as Hw; case_bool_decide as Hb; try done.
    by rewrite <- app_assoc.
Qed.

Lemma list_filter_sublist {A : Type} (f : A → bool) (l : list A) :
  List.filter f l `sublist_of` l.
Proof.
  induction l as [|x l IH]; [done|]. cbn [List.filter].
  destruct (f x); [by apply sublist_skip|by apply sublist_cons].
Qed.

(** X10: a missing file raises [FileNotFoundError]; otherwise load_wordlist
    returns exactly the lines of the file, stripped and lowercased, that are
    not blank, in the order of the file and as often as they occur: every
    word returned is non-empty, has no surrounding whitespace and is in
    lowercase. *)
Theorem X10_load_wordlist_words files filename :
  (files !! filename = None →
   load_wordlist files filename =
     inl (FileNotFoundError (filename ++ " not found in current directory."))) ∧
  (∀ lines, files !! filename = Some lines →
   ∃ words,
     load_wordlist files filename = inr words ∧
     words = List.filter (λ w, bool_decide (w ≠ EmptyString))
               (map (λ line, Py.lower (PyText.strip line)) lines) ∧
     words `sublist_of` map (λ line, Py.lower (PyText.strip line)) lines ∧
     (∀ w, w ∈ words ↔
           w ≠ EmptyString ∧
           ∃ line, line ∈ lines ∧ w = Py.lower (PyText.strip line)) ∧
     (∀ w, w ∈ words →
           w ≠ EmptyString ∧ PyText.strip w = w ∧ Py.lower w = w)).
Proof.
  unfold load_wordlist. split; [by intros ->|].
  intros lines ->. eexists. split; [done|].
  rewrite wordlist_lines_eq. cbn [app]. split; [done|].
  assert (Hmem : ∀ w,
    w ∈ List.filter (λ w, bool_decide (w ≠ EmptyString))
          (map (λ line, Py.lower (PyText.strip line)) lines) ↔
    w ≠ EmptyString ∧ ∃ line, line ∈ lines ∧ w = Py.lower (PyText.strip line)).
  { intros w. rewrite list_elem_of_In, filter_In, <- list_elem_of_In.
    rewrite list_elem_of_fmap, bool_decide_eq_true. split.
    - intros [(line & -> & Hl) Hne]. eauto.
    - intros [Hne (line & Hl & ->)]. eauto. }
  split; [|split; [exact Hmem|]].
  - apply list_filter_sublist.
  - intros w [Hne (line & _ & ->)]%Hmem. split; [done|].
    apply lower_strip_normal.
Qed.

Lemma X10_load_wordlist_words_witness :
  load_wordlist
    {[ "wordlist" := [" Hello "; "  "; "WORLD"; "hello"; ""] ]} "wordlist"
    = inr ["hello"; "world"; "hello"].
Proof.
  destruct (proj2 (X10_load_wordlist_words
                     {[ "wordlist" := [" Hello "; "  "; "WORLD"; "hello"; ""] ]}
                     "wordlist")
              [" Hello "; "  "; "WORLD"; "hello"; ""] ltac:(by vm_compute))
    as (words & -> & -> & _).
  by vm_compute.
Defined.

(** ** X11: matching is case-insensitive from the file to the word *)

(** X11: with the dictionary that load_wordlist returns, a word that equals
    a line of the file up to letter case and surrounding whitespace of the
    line is auto-corrected to its lowercase form (threshold at most 1). *)
Theorem X11_loaded_word_is_autocorrected files filename lines line word
    threshold max_suggestions nearby_keys :
  files !! filename = Some lines → line ∈ lines →
  Py.lower (PyText.strip line) = Py.lower word → word ≠ EmptyString →
  threshold <= 1 →
  ∃ dictionary suggestions,
    load_wordlist files filename = inr dictionary ∧
    autocorrect word dictionary threshold max_suggestions nearby_keys
      = Some (Some (Py.lower word), suggestions).
Proof.
  intros Hfile Hline Heq Hne Hthr. unfold load_wordlist. rewrite Hfile.
  eexists. rewrite autocorrect_eq.
  destruct (known_word_ranks_first (Py.lower word) (wordlist_lines lines [])
              threshold (default ∅ nearby_keys)) as (s & rest & -> & Hs).
  - rewrite wordlist_lines_eq. cbn [app].
    rewrite list_elem_of_In, filter_In, <- list_elem_of_In.
    rewrite list_elem_of_fmap, bool_decide_eq_true. split; [by exists line|].
    by rewrite lower_empty.
  - done.
  - destruct (Qle_bool s (9 # 10)) eqn:Hle; [apply Qle_bool_iff in Hle; lra|].
    by eexists.
Qed.

Lemma X11_loaded_word_is_autocorrected_witness :
  ∃ dictionary suggestions,
    load_wordlist {[ "wordlist" := [" Hello "; "  "; "WORLD"] ]} "wordlist"
      = inr dictionary ∧
    autocorrect "hELLO" dictionary (3 # 4) 5 None
      = Some (Some "hello", suggestions).
Proof.
  apply (X11_loaded_word_is_autocorrected
           {[ "wordlist" := [" Hello "; "  "; "WORLD"] ]} "wordlist"
           [" Hello "; "  "; "WORLD"] " Hello " "hELLO" (3 # 4) 5 None).
  - by vm_compute.
  - apply list_elem_of_here.
  - reflexivity.
  - done.
  - by vm_compute.
Defined.

(** ** Facts on splitting *)

Lemma append_empty_l (s : string) : (EmptyString ++ s)%string = s.
Proof. reflexivity. Qed.

Lemma append_cons c (a b : string) :
  (String c a ++ b)%string = String c (a ++ b).
Proof. reflexivity. Qed.

Lemma split_once_found sep s :
  PyText.contains sep s = true →
  ∃ a b, PyText.split_once sep s = [a; b] ∧
         s = (a ++ String sep b)%string ∧
         PyText.contains sep a = false.
Proof.
  induction s as [|c s IH]; [done|].
  cbn [PyText.contains PyText.split_once]. case_decide as Hc.
  - subst c. intros _. by exists EmptyString, s.
  - intros (a & b & -> & -> & Ha)%IH. exists (String c a), b.
    cbn [PyText.contains String.append]. by case_decide.
Qed.

Lemma split_once_app sep a b :
  PyText.contains sep a = false →
  PyText.split_once sep (a ++ String sep b) = [a; b].
Proof.
  induction a as [|c a IH];
    rewrite ?append_empty_l, ?append_cons;
    cbn [PyText.split_once PyText.contains].
  - intros _. by case_decide.
  - case_decide; [done|]. intros ->%IH. done.
Qed.

Lemma contains_app sep a b :
  PyText.contains sep (a ++ b) =
  PyText.contains sep a || PyText.contains sep b.
Proof.
  induction a as [|c a IH]; rewrite ?append_empty_l, ?append_cons;
    cbn [PyText.contains]; [done|].
  by case_decide.
Qed.

Lemma split_pieces sep s :
  Forall (λ p, PyText.contains sep p = false) (PyText.split sep s).
Proof.
  induction s as [|c s IH]; cbn [PyText.split]; [by repeat constructor|].
  case_decide as Hc; [by constructor|].
  destruct (PyText.split sep s) as [|p ps].
  - repeat constructor. cbn [PyText.contains]. by case_decide.
  - apply Forall_cons in IH as [Hp Hps]. constructor; [|done].
    cbn [PyText.contains]. by case_decide.
Qed.

Lemma split_no_sep sep s :
  PyText.contains sep s = false → PyText.split sep s = [s].
Proof.
  induction s as [|c s IH]; cbn [PyText.split PyText.contains]; [done|].
  case_decide; [done|]. by intros ->%IH.
Qed.

Lemma split_app sep a b :
  PyText.contains sep a = false →
  PyText.split sep (a ++ String sep b) = a :: PyText.split sep b.
Proof.
  induction a as [|c a IH]; rewrite ?append_empty_l, ?append_cons;
    cbn [PyText.split PyText.contains].
  - intros _. by case_decide.
  - case_decide; [done|]. intros ->%IH. done.
Qed.

Lemma contains_lstrip sep s :
  PyText.contains sep (PyText.lstrip s) = true → PyText.contains sep s = true.
Proof.
  induction s as [|c s IH]; cbn [PyText.lstrip PyText.contains]; [done|].
  destruct (PyText.is_space c); [|done]. case_decide; auto.
Qed.

Lemma contains_rstrip sep s :
  PyText.contains sep (PyText.rstrip s) = true → PyText.contains sep s = true.
Proof.
  induction s as [|c s IH]; [done|]. rewrite rstrip_cons. cbn [PyText.contains].
  destruct (PyText.rstrip s) as [|c' r].
  - destruct (PyText.is_space c); cbn [PyText.contains]; [done|].
    by case_decide.
  - cbn [PyText.contains] in *. destruct (decide (c = sep)); [done|exact IH].
Qed.

Lemma contains_strip sep s :
  PyText.contains sep s = false →
  PyText.contains sep (PyText.strip s) = false.
Proof.
  intros Hs. destruct (PyText.contains sep (PyText.strip s)) eqn:H; [|done].
  apply contains_rstrip, contains_lstrip in H. congruence.
Qed.

Lemma lower_char_punct c :
  (Py.lower_char c = ":"%char ↔ c = ":"%char) ∧
  (Py.lower_char c = ","%char ↔ c = ","%char).
Proof. destruct c as [[] [] [] [] [] [] [] []]; by vm_compute. Qed.

Lemma contains_lower_colon s :
  PyText.contains ":" (Py.lower s) = PyText.contains ":" s.
Proof.
  induction s as [|c s IH]; [done|]. cbn [Py.lower PyText.contains].
  rewrite IH. destruct (lower_char_punct c) as [[H1 H2] _].
  repeat case_decide; try done; [by apply H1 in H|by apply H2 in H0].
Qed.

Lemma contains_lower_comma s :
  PyText.contains "," (Py.lower s) = PyText.contains "," s.
Proof.
  induction s as [|c s IH]; [done|]. cbn [Py.lower PyText.contains].
  rewrite IH. destruct (lower_char_punct c) as [_ [H1 H2]].
  repeat case_decide; try done; [by apply H1 in H|by apply H2 in H0].
Qed.

(** ** What a line of the keymap file does *)

(** A line is skipped, or it assigns the neighbours after the first colon to
    the lowercased text before it; it never raises. *)
Lemma keymap_line_effect line :
  (∀ km, keymap_line line km = inr km) ∨
  ∃ key neighbors,
    PyText.strip line = (key ++ String ":" neighbors)%string ∧
    PyText.contains ":" key = false ∧
    ∀ km, keymap_line line km =
          inr (<[Py.lower key := neighbor_keys neighbors]> km).
Proof.
  unfold keymap_line. cbn zeta. set (l := PyText.strip line).
  case_decide; [by left|]. destruct (String.prefix "#" l); [by left|].
  destruct (PyText.contains ":" l) eqn:Hc; [|by left]. cbn [negb].
  destruct (split_once_found _ _ Hc) as (a & b & Hs & Hl & Ha).
  right. exists a, b. by rewrite Hs.
Qed.

Lemma neighbor_keys_normal neighbors :
  Forall normal_neighbor (neighbor_keys neighbors).
Proof.
  unfold neighbor_keys. apply Forall_forall.
  intros n (k & -> & [Hk Hne]%list_elem_of_In%filter_In)%list_elem_of_fmap.
  apply bool_decide_eq_true in Hne. apply list_elem_of_In in Hk.
  pose proof (split_pieces "," neighbors) as Hp.
  eapply Forall_forall in Hp; [|exact Hk].
  destruct (lower_strip_normal k) as [Hs Hl].
  repeat split; [by rewrite lower_empty|done|done|].
  rewrite contains_lower_comma. by apply contains_strip.
Qed.

Lemma keymap_lines_total lines km :
  ∃ km', keymap_lines lines km = inr km'.
Proof.
  revert km. induction lines as [|line rest IH]; intros km; [by eexists|].
  cbn [keymap_lines].
  destruct (keymap_line_effect line) as [->|(key & nb & _ & _ & ->)]; apply IH.
Qed.

Lemma keymap_lines_app lines1 lines2 km :
  keymap_lines (lines1 ++ lines2) km =
  match keymap_lines lines1 km with
  | inl e => inl e
  | inr km' => keymap_lines lines2 km'
  end.
Proof.
  revert km. induction lines1 as [|line rest IH]; intros km; [done|].
  cbn [app keymap_lines]. destruct (keymap_line line km); [done|apply IH].
Qed.

(** ** X12: what load_keymap_conf returns *)

(** X12: a missing file raises [FileNotFoundError]; otherwise
    load_keymap_conf returns a keymap whatever the lines are (a malformed
    line raises nothing), and every entry has a lowercase key without a colon
    and neighbours that are non-empty, stripped, lowercase and without a
    comma. *)
Theorem X12_load_keymap_conf_entries files filename :
  (files !! filename = None →
   ∃ msg, load_keymap_conf files filename = inl (FileNotFoundError msg)) ∧
  (∀ lines, files !! filename = Some lines →
   ∃ keymap,
     load_keymap_conf files filename = inr keymap ∧
     ∀ k ns, keymap !! k = Some ns → normal_entry k ns).
Proof.
  unfold load_keymap_conf. split; [intros ->; by eexists|]. intros lines ->.
  assert (Hinv : ∀ km km',
    (∀ k ns, km !! k = Some ns → normal_entry k ns) →
    keymap_lines lines km = inr km' →
    ∀ k ns, km' !! k = Some ns → normal_entry k ns).
  { induction lines as [|line rest IH]; intros km km' Hkm.
    - by intros [= <-].
    - cbn [keymap_lines].
      destruct (keymap_line_effect line) as [->|(key & nb & _ & Hkey & ->)];
        [by apply IH|].
      apply IH. intros k ns. rewrite lookup_insert. case_decide as Hk.
      + subst k. intros [= <-]. split; [apply lower_idemp|].
        split; [by rewrite contains_lower_colon|apply neighbor_keys_normal].
      + apply Hkm. }
  destruct (keymap_lines_total lines ∅) as [km' Hkm']. exists km'.
  split; [done|]. apply (Hinv ∅ km'); [|done]. intros k ns. by rewrite lookup_empty.
Qed.

Lemma X12_load_keymap_conf_entries_witness :
  ∃ keymap,
    load_keymap_conf
      {[ "keymap.conf" := ["# keys"; " O : I, k ,,L"; "nocolon"; "a:b:c"] ]}
      "keymap.conf" = inr keymap ∧
    ∀ k ns, keymap !! k = Some ns → normal_entry k ns.
Proof.
  apply (proj2 (X12_load_keymap_conf_entries
                  {[ "keymap.conf" :=
                       ["# keys"; " O : I, k ,,L"; "nocolon"; "a:b:c"] ]}
                  "keymap.conf")
           ["# keys"; " O : I, k ,,L"; "nocolon"; "a:b:c"]).
  by vm_compute.
Defined.

(** ** X13: lines that are skipped *)

(** X13: a line that, once stripped, is empty, starts with [#] or has no
    colon can be removed from the file without changing what
    load_keymap_conf returns. *)
Theorem X13_skipped_keymap_lines files filename before line after :
  PyText.strip line = EmptyString ∨
  String.prefix "#" (PyText.strip line) = true ∨
  PyText.contains ":" (PyText.strip line) = false →
  load_keymap_conf (<[filename := (before ++ line :: after)%list]> files)
    filename =
  load_keymap_conf (<[filename := (before ++ after)%list]> files) filename.
Proof.
  intros Hskip. unfold load_keymap_conf. rewrite !lookup_insert_eq.
  rewrite !keymap_lines_app. destruct (keymap_lines before ∅) as [e|km]; [done|].
  cbn [keymap_lines]. replace (keymap_line line km) with
    (inr km : exn + gmap string (list string)); [done|].
  unfold keymap_line. cbn zeta. case_decide as Hempty; [done|].
  destruct Hskip as [He|[Hp|Hc]]; [done|by rewrite Hp|].
  rewrite Hc. by destruct (String.prefix _ _).
Qed.

Lemma X13_skipped_keymap_lines_witness :
  load_keymap_conf (<["keymap.conf" := ["o:i"; "  # comment"; "i:o"]]> ∅)
    "keymap.conf" =
  load_keymap_conf (<["keymap.conf" := ["o:i"; "i:o"]]> ∅) "keymap.conf".
Proof.
  apply (X13_skipped_keymap_lines ∅ "keymap.conf" ["o:i"] "  # comment"
           ["i:o"]).
  right. left. reflexivity.
Defined.

(** ** X14: duplicate keys *)

Lemma keymap_line_lookup line km km0 km' k :
  keymap_line line ∅ = inr km0 → keymap_line line km = inr km' →
  km' !! k = match km0 !! k with Some ns => Some ns | None => km !! k end.
Proof.
  destruct (keymap_line_effect line) as [H|(key & nb & _ & _ & H)];
    rewrite !H; intros [= <-] [= <-].
  - by rewrite lookup_empty.
  - rewrite !lookup_insert. case_decide; [done|]. by rewrite lookup_empty.
Qed.

(** X14: when several lines of the file assign the same key, the last one
    wins: the neighbours of a key are those of the last line that assigns
    it. *)
Theorem X14_last_keymap_line_wins files filename before line after k ns :
  files !! filename = Some (before ++ line :: after)%list →
  keymap_line line ∅ = inr {[ k := ns ]} →
  (∀ l km, l ∈ after → keymap_line l ∅ = inr km → km !! k = None) →
  ∃ keymap,
    load_keymap_conf files filename = inr keymap ∧ keymap !! k = Some ns.
Proof.
  intros Hfile Hline Hafter. unfold load_keymap_conf. rewrite Hfile.
  rewrite keymap_lines_app.
  destruct (keymap_lines_total before ∅) as [km1 ->]. cbn [keymap_lines].
  destruct (keymap_lines_total [line] km1) as [km2 Hkm2].
  cbn [keymap_lines] in Hkm2.
  destruct (keymap_line line km1) as [e|km2'] eqn:Hl; [done|].
  injection Hkm2 as <-.
  assert (Hk : km2' !! k = Some ns).
  { rewrite (keymap_line_lookup _ _ _ _ k Hline Hl).
    by rewrite lookup_singleton_eq. }
  clear Hl Hline Hfile. revert km2' Hk.
  induction after as [|l rest IH]; intros km Hk; [by exists km|].
  cbn [keymap_lines].
  destruct (keymap_lines_total [l] ∅) as [km0 Hkm0].
  destruct (keymap_lines_total [l] km) as [km' Hkm'].
  cbn [keymap_lines] in Hkm0, Hkm'.
  destruct (keymap_line l ∅) as [?|km0'] eqn:H0; [done|].
  destruct (keymap_line l km) as [?|km''] eqn:H'; [done|].
  apply IH.
  - intros l' km3 Hl'. apply Hafter. by right.
  - rewrite (keymap_line_lookup _ _ _ _ k H0 H').
    by rewrite (Hafter l km0' ltac:(left) H0).
Qed.

Lemma X14_last_keymap_line_wins_witness :
  ∃ keymap,
    load_keymap_conf {[ "keymap.conf" := ["o:i"; "O:p, l"; "i:o"] ]}
      "keymap.conf" = inr keymap ∧
    keymap !! "o" = Some ["p"; "l"].
Proof.
  apply (X14_last_keymap_line_wins
           {[ "keymap.conf" := ["o:i"; "O:p, l"; "i:o"] ]} "keymap.conf"
           ["o:i"] "O:p, l" ["i:o"] "o" ["p"; "l"]).
  - by vm_compute.
  - by vm_compute.
  - intros l km [->|Hl]%elem_of_cons; [|by apply elem_of_nil in Hl].
    vm_compute. by intros [= <-].
Defined.

(** ** X15: only single-character keys count *)

(** X15: a line of the keymap file changes a similarity only if, once
    stripped, its second character is the colon, that is, if its key is a
    single character; any other line is skipped or stores an entry that is
    never consulted. *)
Theorem X15_only_single_character_keys line keymap word1 word2 :
  String.get 1 (PyText.strip line) ≠ Some ":"%char →
  ∃ keymap',
    keymap_line line keymap = inr keymap' ∧
    modified_levenshtein_ratio word1 word2 keymap' =
    modified_levenshtein_ratio word1 word2 keymap.
Proof.
  intros Hget.
  destruct (keymap_line_effect line) as [->|(key & nb & Hs & Hkey & ->)];
    [by eexists|].
  eexists. split; [done|]. rewrite !modified_levenshtein_ratio_eq. f_equal.
  apply similarity_ext. intros c1 c2. apply are_keys_nearby_insert_dead.
  intros [Hlen _]. rewrite length_lower in Hlen. apply Hget. rewrite Hs.
  destruct key as [|c [|c' key]]; done.
Qed.

Lemma X15_only_single_character_keys_witness :
  ∃ keymap',
    keymap_line "o :i" ∅ = inr keymap' ∧
    modified_levenshtein_ratio "hollo" "hillo" keymap' =
    modified_levenshtein_ratio "hollo" "hillo" ∅.
Proof.
  apply (X15_only_single_character_keys "o :i" ∅ "hollo" "hillo").
  by vm_compute.
Defined.

(** ** X16: a line in the documented format *)

Lemma length_lstrip_le s :
  (String.length (PyText.lstrip s) ≤ String.length s)%nat.
Proof.
  induction s as [|c s IH]; cbn; [done|].
  destruct (PyText.is_space c); cbn; lia.
Qed.

Lemma lstrip_fixed_head c s :
  PyText.lstrip (String c s) = String c s → PyText.is_space c = false.
Proof.
  cbn. destruct (PyText.is_space c); [|done]. intros H.
  pose proof (length_lstrip_le s) as Hle. rewrite H in Hle. cbn in Hle. lia.
Qed.

Lemma strip_fixed n :
  PyText.strip n = n → PyText.lstrip n = n ∧ PyText.rstrip n = n.
Proof.
  unfold PyText.strip. intros H. split.
  - rewrite <- H at 1. by rewrite lstrip_rstrip, lstrip_idemp.
  - rewrite <- H at 1. by rewrite rstrip_idemp.
Qed.

Lemma rstrip_app a b :
  PyText.rstrip b ≠ EmptyString →
  PyText.rstrip (a ++ b) = (a ++ PyText.rstrip b)%string.
Proof.
  intros Hb. induction a as [|c a IH]; [done|].
  rewrite !append_cons, rstrip_cons, IH.
  destruct a as [|c' a]; [|done]. rewrite append_empty_l.
  by destruct (PyText.rstrip b).
Qed.

Lemma join_cons2 sep n n' l :
  PyText.join sep (n :: n' :: l) =
  (n ++ sep ++ PyText.join sep (n' :: l))%string.
Proof. reflexivity. Qed.

Lemma rstrip_join ns :
  ns ≠ [] → Forall (λ n, n ≠ EmptyString ∧ PyText.rstrip n = n) ns →
  PyText.rstrip (PyText.join "," ns) = PyText.join "," ns ∧
  PyText.join "," ns ≠ EmptyString.
Proof.
  intros Hne Hall. induction Hall as [|n l [Hn Hr] Hl IH]; [done|].
  destruct l as [|n' l]; [done|]. rewrite join_cons2.
  destruct IH as [IH1 IH2]; [done|].
  assert (Hr' : PyText.rstrip ("," ++ PyText.join "," (n' :: l)) =
                ("," ++ PyText.join "," (n' :: l))%string).
  { rewrite rstrip_app; by rewrite IH1. }
  split; [|by destruct n]. rewrite rstrip_app; by rewrite Hr'.
Qed.

Lemma split_join ns :
  ns ≠ [] → Forall (λ n, PyText.contains "," n = false) ns →
  PyText.split "," (PyText.join "," ns) = ns.
Proof.
  intros Hne Hall. induction Hall as [|n l Hn Hl IH]; [done|].
  destruct l as [|n' l]; [by apply split_no_sep|].
  rewrite join_cons2. change ("," ++ ?s)%string with (String "," s).
  rewrite split_app by done. by rewrite IH.
Qed.

Lemma neighbor_keys_join ns :
  Forall (λ n, n ≠ EmptyString ∧ PyText.strip n = n ∧
               PyText.contains "," n = false) ns →
  neighbor_keys (PyText.join "," ns) = map Py.lower ns.
Proof.
  intros Hall. unfold neighbor_keys. destruct ns as [|n0 l0]; [done|].
  rewrite split_join; [|done|by eapply Forall_impl; [exact Hall|intros n (_ & _ & ?)]].
  induction Hall as [|n l (Hn & Hs & _) Hl IH]; [done|].
  cbn [List.filter map]. rewrite Hs, bool_decide_eq_true_2 by done.
  cbn [map]. by rewrite Hs, IH.
Qed.

(** X16: a line written in the format of the docstring, [key:n1,n2,...],
    with a key that has no colon, no leading whitespace and no leading [#],
    and neighbours that are non-empty, stripped and without commas, loads as
    the lowercased key mapped to the lowercased neighbours in order. *)
Theorem X16_keymap_line_round_trip key ns keymap :
  PyText.lstrip key = key → String.prefix "#" key = false →
  PyText.contains ":" key = false →
  Forall (λ n, n ≠ EmptyString ∧ PyText.strip n = n ∧
               PyText.contains "," n = false) ns →
  keymap_line (format_keymap_line key ns) keymap =
  inr (<[Py.lower key := map Py.lower ns]> keymap).
Proof.
  intros Hlk Hhash Hcolon Hns. unfold format_keymap_line.
  set (J := PyText.join "," ns).
  assert (Htail : PyText.rstrip (String ":" J) = String ":" J ∧
                  PyText.rstrip (String ":" J) ≠ EmptyString).
  { destruct ns as [|n0 l0]; [done|].
    destruct (rstrip_join (n0 :: l0)) as [Hr Hne]; [done| |].
    - eapply Forall_impl; [exact Hns|]. intros n (? & [_ ?]%strip_fixed & _).
      by split.
    - fold J in Hr, Hne. rewrite rstrip_cons, Hr. by destruct J. }
  assert (Hstrip : PyText.strip (key ++ String ":" J) =
                   (key ++ String ":" J)%string).
  { unfold PyText.strip.
    assert (PyText.lstrip (key ++ String ":" J) = (key ++ String ":" J)%string)
      as ->.
    { destruct key as [|c key]; [done|]. rewrite append_cons.
      cbn [PyText.lstrip]. by rewrite (lstrip_fixed_head c key Hlk). }
    destruct Htail as [Ht Hne]. rewrite rstrip_app by done. by rewrite Ht. }
  unfold keymap_line. cbn zeta. rewrite Hstrip.
  rewrite decide_False by by destruct key.
  assert (String.prefix "#" (key ++ String ":" J) = false) as ->.
  { destruct key as [|c key]; [done|]. rewrite append_cons.
    cbn [String.prefix] in *. destruct (ascii_dec _ c); [|done].
    by destruct key. }
  rewrite contains_app. cbn [PyText.contains]. rewrite decide_True by done.
  rewrite orb_true_r. cbn [negb].
  rewrite split_once_app by done. cbn [unpack2]. subst J.
  by rewrite neighbor_keys_join.
Qed.

Lemma X16_keymap_line_round_trip_witness :
  keymap_line (format_keymap_line "o" ["i"; "k"; "l"; "p"; "0"; "9"]) ∅ =
  inr (<["o" := ["i"; "k"; "l"; "p"; "0"; "9"]]> ∅).
Proof.
  apply (X16_keymap_line_round_trip "o" ["i"; "k"; "l"; "p"; "0"; "9"] ∅).
  - reflexivity.
  - reflexivity.
  - reflexivity.
  - repeat constructor; by vm_compute.
Defined.


(** * The console *)

(** ** Facts on the loop of main *)

Lemma after_value {A : Type} (events : list event) (r : run A) :
  (after events r).1.1 = r.1.1 ∧ (after events r).1.2 = r.1.2 ∧
  (after events r).2 = (events ++ r.2)%list.
Proof. by destruct r as [[v stdin] events']. Qed.

Lemma main_loop_nil mode dictionary R :
  main_loop mode dictionary R [] = (inl EOFError, [], [Ask (nl ++ "Enter word: ")]).
Proof. reflexivity. Qed.

Lemma autocorrect_total word dictionary threshold max_suggestions nearby_keys :
  ∃ corrected suggestions,
    autocorrect word dictionary threshold max_suggestions nearby_keys
      = Some (corrected, suggestions).
Proof.
  rewrite autocorrect_eq. destruct (sort_desc _) as [|[w s] rest]; by eauto.
Qed.

Lemma index_in_range {A : Type} (l : list A) (i : Z) :
  (0 ≤ i < Z.of_nat (length l))%Z →
  ∃ x, index l i = inr x ∧ l !! Z.to_nat i = Some x.
Proof.
  intros Hi. unfold index. rewrite (proj2 (Z.leb_le 0 i)) by lia.
  rewrite (proj2 (Z.ltb_ge i 0)) by lia.
  destruct (lookup_lt_is_Some_2 l (Z.to_nat i)) as [x Hx]; [lia|].
  exists x. by rewrite Hx.
Qed.

(** The selection raises nothing but the [ValueError] of [int] on more
    than [int_max_str_digits] digits, and a correction is one of the
    suggestions, at the position typed. *)
Lemma pick_cases word suggestions selection :
  (pick word suggestions selection = inl ValueError ∧
   isdigit selection = true ∧
   (int_max_str_digits < String.length selection)%nat) ∨
  ∃ said,
    pick word suggestions selection = inr said ∧
    (said = SayInvalidSelection ∨ said = SayNoCorrection ∨
     said = SayInvalidInput ∨
     ∃ n chosen,
       said = SayCorrected word chosen ∧ isdigit selection = true ∧
       int selection = inr n ∧
       (1 ≤ n ≤ Z.of_nat (length suggestions))%Z ∧
       suggestions !! Z.to_nat (n - 1) = Some chosen).
Proof.
  unfold pick. destruct (isdigit selection) eqn:Hd.
  - unfold int. case_decide as Hlen; [by left|]. right.
    destruct (_ && _)%Z eqn:Hr.
    + apply andb_true_iff in Hr as [H0%Z.leb_le H1%Z.ltb_lt].
      destruct (index_in_range suggestions (int_digits 0 selection - 1))
        as (x & -> & Hx); [lia|].
      eexists. split; [done|]. do 3 right. exists (int_digits 0 selection), x.
      repeat split; (done || lia).
    + eexists. split; [done|]. by left.
  - right. case_bool_decide; eexists; (split; [done|]); [right; by left|].
    right. right. by left.
Qed.

Lemma say_suggestions_lookup e k suggestions :
  e ∈ say_suggestions k suggestions →
  ∃ i suggestion,
    e = SaySuggestion (k + i) suggestion ∧ suggestions !! i = Some suggestion.
Proof.
  revert k. induction suggestions as [|s rest IH]; intros k; cbn.
  - by intros ?%elem_of_nil.
  - intros [->|(i & s' & -> & Hs)%IH]%elem_of_cons.
    + exists 0%nat, s. by rewrite Nat.add_0_r.
    + exists (S i), s'. split; [f_equal; lia|done].
Qed.

(** One round of the loop: the value, the input left and the events of
    [main_loop] on a non-empty input are those of a later call, after events
    that are all [emitted]; or the loop stops there, on an exit command, on
    the end of the input, or on a selection too long for [int]. *)
Lemma main_loop_round mode dictionary R line rest :
  ∃ events,
    Forall (emitted mode dictionary R) events ∧
    ((main_loop mode dictionary R (line :: rest)
        = (inr (), rest, events) ∧ last events = Some SayExiting ∧
      Py.lower (PyText.strip line) ∈ ["exit"; "quit"]) ∨
     (∃ rest', (rest' = rest ∨ ∃ answer, rest = answer :: rest') ∧
        main_loop mode dictionary R (line :: rest)
          = after events (main_loop mode dictionary R rest')) ∨
     (main_loop mode dictionary R (line :: rest)
        = (inl EOFError, [], events)) ∨
     (∃ answer rest',
        rest = answer :: rest' ∧
        isdigit (PyText.strip answer) = true ∧
        (int_max_str_digits < String.length (PyText.strip answer))%nat ∧
        last events = Some (Ask pick_prompt) ∧
        main_loop mode dictionary R (line :: rest)
          = (inl ValueError, rest', events))).
Proof.
  cbn [main_loop]. set (ask := Ask (nl ++ "Enter word: ")).
  set (word := PyText.strip line).
  case_bool_decide as Hexit.
  { exists [ask; SayExiting]. split; [repeat constructor|]. left.
    split; [done|]. split; [done|]. exact Hexit. }
  case_bool_decide as Hempty.
  { exists [ask; SayNonEmpty]. split; [repeat constructor|].
    right. left. exists rest. split; [by left|done]. }
  destruct (autocorrect_total word dictionary default_threshold
              default_max_suggestions (Some R)) as (corrected & suggestions & Ha).
  rewrite Ha. destruct (mode && truthy corrected) eqn:Hmode.
  { apply andb_true_iff in Hmode as [-> Ht].
    destruct corrected as [best|]; [|done]. cbn [str_of].
    exists [ask; SayAutoCorrected word best]. split.
    - repeat constructor. by eapply emitted_auto.
    - right. left. exists rest. split; [by left|done]. }
  destruct suggestions as [|s0 suggestions].
  { exists [ask; SayNoSuggestions word]. split; [repeat constructor|].
    right. left. exists rest. split; [by left|done]. }
  set (listing := ([ask; SayNoAuto word] ++
                   say_suggestions 1 (s0 :: suggestions) ++
                   [Ask pick_prompt])%list).
  assert (Hlisting : Forall (emitted mode dictionary R) listing).
  { unfold listing. apply Forall_app. split; [repeat constructor|].
    apply Forall_app. split; [|repeat constructor].
    apply Forall_forall. intros e (i & s & -> & Hs)%say_suggestions_lookup.
    by eapply emitted_suggestion. }
  assert (Hlast : last listing = Some (Ask pick_prompt)).
  { unfold listing. by rewrite !app_assoc, last_snoc. }
  destruct rest as [|answer rest'].
  { exists listing. split; [done|]. right. right. by left. }
  destruct (pick_cases word (s0 :: suggestions) (PyText.strip answer))
    as [(-> & Hd & Hlen)|(said & -> & Hsaid)].
  { exists listing. split; [done|]. do 3 right. by exists answer, rest'. }
  exists (listing ++ [said])%list. split.
  - apply Forall_app. split; [done|]. repeat constructor.
    destruct Hsaid as [->|[->|[->|(n & chosen & -> & Hd & Hn & Hr & Hc)]]];
      try (by constructor).
    by eapply emitted_corrected.
  - right. left. exists rest'. split; [right; by exists answer|done].
Qed.

(** An ending stays one after more input and more events before it. *)
Lemma ending_after pre events0 stdin v rest events :
  ending stdin v rest events →
  ending (pre ++ stdin) v rest (events0 ++ events).
Proof.
  assert (Hlst : ∀ e, last events = Some e →
                      last (events0 ++ events) = Some e).
  { intros e. destruct events as [|e0 ev]; [done|]. by rewrite last_app_cons. }
  intros [(-> & Hlast & before & line & -> & Hline) |
          [[-> ->] | (-> & Hlast & before & line & -> & Hline)]].
  - left. split; [done|]. split; [by apply Hlst|].
    exists (pre ++ before)%list, line. by rewrite <- app_assoc.
  - right. by left.
  - right. right. split; [done|]. split; [by apply Hlst|].
    exists (pre ++ before)%list, line. by rewrite <- app_assoc.
Qed.

(** The whole loop: all its events are [emitted], and it ends on an exit
    command, after printing "Exiting.", on the end of the input, or on the
    [ValueError] of [int] for a selection of too many digits. *)
Lemma main_loop_trace mode dictionary R stdin :
  ∃ v rest events,
    main_loop mode dictionary R stdin = (v, rest, events) ∧
    Forall (emitted mode dictionary R) events ∧
    ending stdin v rest events.
Proof.
  remember (length stdin) as n eqn:Hn. revert stdin Hn.
  induction n as [n IH] using lt_wf_ind. intros [|line rest] Hn.
  - rewrite main_loop_nil. do 3 eexists. split; [done|].
    split; [repeat constructor|]. right. by left.
  - destruct (main_loop_round mode dictionary R line rest)
      as (events & Hev &
          [(-> & Hlast & Hexit) | [(rest' & Hrest & ->) | [-> | Hval]]]).
    + do 3 eexists. split; [done|]. split; [done|]. left.
      split; [done|]. split; [done|]. by exists [], line.
    + assert (∃ pre, line :: rest = (pre ++ rest')%list) as [pre Hpre].
      { destruct Hrest as [->|[answer ->]];
          [by exists [line]|by exists [line; answer]]. }
      destruct (IH (length rest')) with (stdin := rest')
        as (v & r & ev & Hloop & Hall & Hend); [|done|].
      { subst n. destruct Hrest as [->|[answer ->]]; cbn; lia. }
      rewrite Hloop. cbn [after]. do 3 eexists. split; [done|].
      split; [by apply Forall_app|]. rewrite Hpre. by apply ending_after.
    + do 3 eexists. split; [done|]. split; [done|]. right. by left.
    + destruct Hval as (answer & rest' & -> & Hd & Hlen & Hlast & ->).
      do 3 eexists. split; [done|]. split; [done|]. right. right.
      split; [done|]. split; [done|]. by exists [line], answer.
Qed.

(** What a short session writes, as text: the prompts and the lines
    printed, in order. *)
Example session_text :
  text <$> (main {[ "wordlist" := ["hello"; "help"];
                    "keymap.conf" := ["o:i,p"] ]}
              ["n"; "helo"; "1"; "quit"]).2 =
  ["Enable automatic correction if confident? [y/n]: ";
   nl ++ "Enter words to autocorrect, or type 'exit' to quit.";
   nl ++ "Enter word: ";
   "No auto-correction applied for 'helo'. Suggestions:";
   "  1. help"; "  2. hello";
   "Pick a number to correct to that word, or press Enter to skip: ";
   "Corrected 'helo' to 'help'.";
   nl ++ "Enter word: ";
   "Exiting."]%string.
Proof. by vm_compute. Qed.

(** ** X17: the yes/no prompt *)

Lemma answer_cases (answer : string) :
  answer ∈ ["y"; "yes"; "n"; "no"] ↔
  answer ∈ ["y"; "yes"] ∨ answer ∈ ["n"; "no"].
Proof. rewrite !elem_of_cons, !elem_of_nil. tauto. Qed.

(** X17: yes_no_prompt answers with the first line that, stripped and
    lowercased, is [y], [yes], [n] or [no]; it asks again, after the reminder,
    for every line before it, and raises [EOFError] if the input ends
    first.  The lines after the answer are left unread. *)
Theorem X17_yes_no_prompt_first_valid_answer prompt rejected :
  Forall (λ line, Py.lower (PyText.strip line) ∉ ["y"; "yes"; "n"; "no"])
    rejected →
  let ask := Ask (prompt ++ " [y/n]: ") in
  let asked := flat_map (λ _ : string, [ask; SayPlease]) rejected in
  (∀ line rest,
     Py.lower (PyText.strip line) ∈ ["y"; "yes"; "n"; "no"] →
     yes_no_prompt prompt (rejected ++ line :: rest) =
       (inr (bool_decide (Py.lower (PyText.strip line) ∈ ["y"; "yes"])),
        rest, (asked ++ [ask])%list)) ∧
  yes_no_prompt prompt rejected = (inl EOFError, [], (asked ++ [ask])%list).
Proof.
  intros Hrej ask asked. subst asked.
  induction Hrej as [|bad rejected Hbad Hrej [IH1 IH2]].
  - split; [|done]. intros line rest Hline. cbn [app yes_no_prompt].
    case_bool_decide as Hy; [done|]. case_bool_decide as Hn; [done|].
    exfalso. apply answer_cases in Hline as [?|?]; done.
  - assert (Hy : Py.lower (PyText.strip bad) ∉ ["y"; "yes"])
      by (intros ?; apply Hbad, answer_cases; by left).
    assert (Hn : Py.lower (PyText.strip bad) ∉ ["n"; "no"])
      by (intros ?; apply Hbad, answer_cases; by right).
    split.
    + intros line rest Hline. cbn [app yes_no_prompt].
      rewrite !bool_decide_eq_false_2 by done. by rewrite IH1.
    + cbn [yes_no_prompt]. rewrite !bool_decide_eq_false_2 by done.
      by rewrite IH2.
Qed.

Lemma X17_yes_no_prompt_first_valid_answer_witness :
  yes_no_prompt "Go on?" ["maybe"; ""; " YES "; "hello"] =
    (inr true, ["hello"],
     [Ask "Go on? [y/n]: "; SayPlease; Ask "Go on? [y/n]: "; SayPlease;
      Ask "Go on? [y/n]: "]).
Proof.
  apply (proj1 (X17_yes_no_prompt_first_valid_answer "Go on?" ["maybe"; ""]
                  ltac:(apply (bool_decide_unpack _); by vm_compute))
           " YES " ["hello"]).
  apply (bool_decide_unpack _). by vm_compute.
Defined.

Lemma yes_no_prompt_outcome prompt stdin :
  ∃ v rest events,
    yes_no_prompt prompt stdin = (v, rest, events) ∧
    ((v = inl EOFError ∧ rest = []) ∨ ∃ b, v = inr b) ∧
    (∃ used, stdin = (used ++ rest)%list) ∧
    Forall (λ e, e = SayPlease ∨ ∃ p, e = Ask p) events.
Proof.
  assert (Hask : ∀ p, (λ e, e = SayPlease ∨ ∃ p, e = Ask p) (Ask p))
    by (intros p; right; by exists p).
  induction stdin as [|line rest (v & r & ev & IH & Hv & [used Hused] & Hev)];
    cbn [yes_no_prompt].
  - do 3 eexists. split; [done|]. split; [by left|]. split; [by exists []|].
    constructor; [apply Hask|constructor].
  - case_bool_decide.
    { do 3 eexists. split; [done|]. split; [right; by eexists|].
      split; [by exists [line]|].
      constructor; [apply Hask|constructor]. }
    case_bool_decide.
    { do 3 eexists. split; [done|]. split; [right; by eexists|].
      split; [by exists [line]|].
      constructor; [apply Hask|constructor]. }
    rewrite IH. cbn [after]. do 3 eexists. split; [done|]. split; [done|].
    split; [exists (line :: used); cbn [app]; by f_equal|].
    cbn [app]. constructor; [apply Hask|]. constructor; [by left|done].
Qed.

(** ** Facts on main *)

Lemma autocorrect_words_in_dictionary word dictionary threshold
    max_suggestions nearby_keys corrected suggestions :
  autocorrect word dictionary threshold max_suggestions nearby_keys
    = Some (corrected, suggestions) →
  (∀ w, corrected = Some w → w ∈ dictionary) ∧
  (∀ w, w ∈ suggestions → w ∈ dictionary).
Proof.
  rewrite autocorrect_eq. set (kept := retained _ _ _ _).
  assert (Hkept : ∀ p, p ∈ sort_desc kept → p.1 ∈ dictionary).
  { intros [w s]. rewrite sort_desc_perm. by intros (Hw & _)%elem_of_retained. }
  destruct (sort_desc kept) as [|[w0 s0] rest].
  - intros [= <- <-]. split; [done|]. by intros w ?%elem_of_nil.
  - intros [= <- <-]. split.
    + intros w. destruct (negb _); [|done]. intros [= <-].
      apply (Hkept (w0, s0)). by left.
    + intros w (p & -> & Hp%slice_to_subseteq)%list_elem_of_fmap.
      by apply Hkept.
Qed.

(** With both files loaded, main is the prompt, the banner and the loop. *)
Lemma main_loaded files stdin dictionary R :
  load_wordlist files "wordlist" = inr dictionary →
  load_keymap_conf files "keymap.conf" = inr R →
  main files stdin =
  match yes_no_prompt "Enable automatic correction if confident?" stdin with
  | (inl e, stdin', events) => (inl e, stdin', events)
  | (inr auto_correct_mode, stdin', events) =>
      after (events ++ [SayBanner])%list
        (main_loop auto_correct_mode dictionary R stdin')
  end.
Proof. intros Hd Hk. unfold main. by rewrite Hd, Hk. Qed.

(** How a run of main ends, and what it writes. *)
Lemma main_trace files stdin :
  ∃ v rest events,
    main files stdin = (v, rest, events) ∧
    (((files !! "wordlist" = None ∨ files !! "keymap.conf" = None) ∧
      v = inr () ∧ rest = stdin ∧ ∃ msg, events = [SayError msg]) ∨
     (∃ dictionary R mode v0 rest0 events0,
        load_wordlist files "wordlist" = inr dictionary ∧
        load_keymap_conf files "keymap.conf" = inr R ∧
        yes_no_prompt "Enable automatic correction if confident?" stdin
          = (v0, rest0, events0) ∧
        (v0 = inl EOFError ∨ v0 = inr mode) ∧
        Forall (λ e, e = SayPlease ∨ e = SayBanner ∨
                     emitted mode dictionary R e) events ∧
        ending stdin v rest events)).
Proof.
  destruct (files !! "wordlist") as [lines|] eqn:Hw; cycle 1.
  { unfold main, load_wordlist. rewrite Hw. do 3 eexists. split; [done|].
    left. split; [by left|]. split; [done|]. split; [done|]. by eexists. }
  destruct (files !! "keymap.conf") as [klines|] eqn:Hk; cycle 1.
  { unfold main, load_wordlist, load_keymap_conf. rewrite Hw, Hk.
    do 3 eexists. split; [done|].
    left. split; [by right|]. split; [done|]. split; [done|]. by eexists. }
  destruct (keymap_lines_total klines ∅) as [R HR].
  set (d := wordlist_lines lines []).
  assert (Hlw : load_wordlist files "wordlist" = inr d)
    by (unfold load_wordlist; by rewrite Hw).
  assert (Hlk : load_keymap_conf files "keymap.conf" = inr R)
    by (unfold load_keymap_conf; by rewrite Hk).
  rewrite (main_loaded _ _ _ _ Hlw Hlk).
  destruct (yes_no_prompt_outcome
              "Enable automatic correction if confident?" stdin)
    as (v0 & rest0 & ev0 & Hp & Hv0 & [used Hused] & Hev0).
  rewrite Hp.
  assert (Hev : ∀ mode, Forall (λ e, e = SayPlease ∨ e = SayBanner ∨
                                    emitted mode d R e) ev0).
  { intros mode. eapply Forall_impl; [exact Hev0|].
    intros e [-> | [p ->]]; [by left|]. right. right. constructor. }
  destruct Hv0 as [[-> ->] | [mode ->]].
  - do 3 eexists. split; [done|]. right.
    exists d, R, true. do 3 eexists. split; [done|]. split; [done|].
    split; [done|]. split; [by left|]. split; [apply Hev|]. right. by left.
  - destruct (main_loop_trace mode d R rest0)
      as (v & rest & ev & Hloop & Hall & Hend).
    rewrite Hloop. cbn [after]. do 3 eexists. split; [done|]. right.
    exists d, R, mode. do 3 eexists. split; [done|]. split; [done|].
    split; [done|]. split; [by right|]. split.
    + rewrite <- app_assoc. apply Forall_app. split; [apply Hev|].
      constructor; [right; by left|].
      eapply Forall_impl; [exact Hall|]. intros e He. by do 2 right.
    + rewrite Hused. by apply ending_after.
Qed.

(** ** X18: missing files *)

(** X18: when the word list is missing, or the keymap is, main prints the
    message of the [FileNotFoundError] and returns normally without reading
    any input; the word list is looked for first. *)
Theorem X18_main_missing_file files stdin :
  (files !! "wordlist" = None →
   main files stdin =
     (inr (), stdin, [SayError "wordlist not found in current directory."])) ∧
  (is_Some (files !! "wordlist") → files !! "keymap.conf" = None →
   main files stdin =
     (inr (), stdin,
      [SayError "keymap.conf not found in current directory."])).
Proof.
  unfold main, load_wordlist, load_keymap_conf. split.
  - by intros ->.
  - intros [lines ->] ->. done.
Qed.

Lemma X18_main_missing_file_witness :
  main {[ "wordlist" := ["hello"] ]} ["y"; "helo"] =
    (inr (), ["y"; "helo"],
     [SayError "keymap.conf not found in current directory."]).
Proof.
  apply (proj2 (X18_main_missing_file {[ "wordlist" := ["hello"] ]}
                  ["y"; "helo"])).
  - exists ["hello"]. by vm_compute.
  - by vm_compute.
Defined.

(** ** X19: the exceptions main lets out *)

(** X19: on input lines of ASCII characters, whatever the files, the
    loaders raise nothing but the [FileNotFoundError] of a missing file (the
    keymap parser raises on no line), and main returns normally or raises
    [EOFError] or [ValueError], nothing else: no [IndexError] (a selection is
    used as an index only when it is between 1 and the number of
    suggestions), no [FileNotFoundError] and no error of the engine.  The
    [ValueError] comes from [int] only: it is raised right after the prompt
    for a selection, on a line of more digits than [int_max_str_digits]. *)
Theorem X19_main_exceptions files stdin :
  Forall (λ line, isascii line = true) stdin →
  (∀ filename e,
     load_wordlist files filename = inl e →
     files !! filename = None ∧
     e = FileNotFoundError (filename ++ " not found in current directory.")) ∧
  (∀ filename e,
     load_keymap_conf files filename = inl e →
     files !! filename = None ∧
     e = FileNotFoundError (filename ++ " not found in current directory.")) ∧
  ∃ v rest events,
    main files stdin = (v, rest, events) ∧
    (v = inr () ∨ v = inl EOFError ∨ v = inl ValueError) ∧
    (v = inl ValueError →
     last events = Some (Ask pick_prompt) ∧
     ∃ line, line ∈ stdin ∧ isdigit (PyText.strip line) = true ∧
             (int_max_str_digits < String.length (PyText.strip line))%nat).
Proof.
  intros _. split; [|split].
  - intros filename e. unfold load_wordlist.
    destruct (files !! filename); [done|]. by intros [= <-].
  - intros filename e. unfold load_keymap_conf.
    destruct (files !! filename) as [lines|].
    + by destruct (keymap_lines_total lines ∅) as [km ->].
    + by intros [= <-].
  - destruct (main_trace files stdin) as (v & rest & events & Hmain & Hcases).
    exists v, rest, events. split; [done|].
    destruct Hcases
      as [(_ & -> & _)|(d & R & mode & v0 & r0 & e0 & _ & _ & _ & _ & _ & Hend)].
    { split; [by left|done]. }
    destruct Hend as [(-> & _) | [[-> _] | (-> & Hlast & before & line & -> & Hline)]].
    + split; [by left|done].
    + split; [right; by left|done].
    + split; [by do 2 right|]. intros _. split; [done|]. exists line.
      split; [|done]. apply elem_of_app. right. by left.
Qed.

Lemma X19_main_exceptions_witness :
  Forall (λ line, isascii line = true) long_selection_input ∧
  ∃ rest events,
    main {[ "wordlist" := ["hello"; "help"]; "keymap.conf" := ["o:i"] ]}
      long_selection_input = (inl ValueError, rest, events) ∧
    last events = Some (Ask pick_prompt) ∧
    ∃ line,
      line ∈ long_selection_input ∧ isdigit (PyText.strip line) = true ∧
      (int_max_str_digits < String.length (PyText.strip line))%nat.
Proof.
  assert (Hascii : Forall (λ line, isascii line = true) long_selection_input)
    by (apply (bool_decide_unpack _); by vm_compute).
  split; [exact Hascii|].
  destruct (X19_main_exceptions
              {[ "wordlist" := ["hello"; "help"]; "keymap.conf" := ["o:i"] ]}
              long_selection_input Hascii)
    as (_ & _ & v & rest & events & Hmain & _ & Hvalue).
  assert (Hmain' := Hmain). vm_compute in Hmain'. injection Hmain' as <- _ _.
  exists rest, events. split; [exact Hmain|]. exact (Hvalue eq_refl).
Defined.

(** ** X20: automatic correction switched off *)

(** X20: when the answer to the first question is no, main never announces
    an automatic correction. *)
Theorem X20_no_auto_correction_when_off files stdin rest0 events0 :
  yes_no_prompt "Enable automatic correction if confident?" stdin
    = (inr false, rest0, events0) →
  ∃ v rest events,
    main files stdin = (v, rest, events) ∧
    ∀ word corrected, SayAutoCorrected word corrected ∉ events.
Proof.
  intros Hno.
  destruct (main_trace files stdin) as (v & rest & events & Hmain & Hcases).
  exists v, rest, events. split; [done|]. intros word corrected Hin.
  destruct Hcases
    as [(_ & _ & _ & msg & ->)|(d & R & mode & v0 & r0 & e0 & Hrest)].
  - by apply list_elem_of_singleton in Hin.
  - destruct Hrest as (_ & _ & Hp & Hv0 & Hall & _).
    rewrite Hno in Hp. injection Hp as <- <- <-.
    destruct Hv0 as [|[= <-]]; [done|].
    eapply Forall_forall in Hall; [|exact Hin].
    destruct Hall as [|[|Hem]]; [done..|]. by inversion Hem.
Qed.

Lemma X20_no_auto_correction_when_off_witness :
  ∃ v rest events,
    main {[ "wordlist" := ["hello"]; "keymap.conf" := ["o:i"] ]}
      [" No "; "hello"; ""; "exit"] = (v, rest, events) ∧
    ∀ word corrected, SayAutoCorrected word corrected ∉ events.
Proof.
  apply (X20_no_auto_correction_when_off
           {[ "wordlist" := ["hello"]; "keymap.conf" := ["o:i"] ]}
           [" No "; "hello"; ""; "exit"] ["hello"; ""; "exit"]
           [Ask "Enable automatic correction if confident? [y/n]: "]).
  by vm_compute.
Defined.

(** ** X21: the corrections announced *)

(** X21: every word that main announces as a correction, automatic or
    picked by number, is a word of the loaded word list. *)
Theorem X21_corrections_are_dictionary_words files stdin dictionary :
  load_wordlist files "wordlist" = inr dictionary →
  ∃ v rest events,
    main files stdin = (v, rest, events) ∧
    ∀ word corrected,
      SayAutoCorrected word corrected ∈ events ∨
      SayCorrected word corrected ∈ events →
      corrected ∈ dictionary.
Proof.
  intros Hd.
  destruct (main_trace files stdin) as (v & rest & events & Hmain & Hcases).
  exists v, rest, events. split; [done|]. intros word corrected Hin.
  destruct Hcases
    as [(_ & _ & _ & msg & ->)|(d & R & mode & v0 & r0 & e0 & Hrest)].
  - destruct Hin as [Hin|Hin]; by apply list_elem_of_singleton in Hin.
  - destruct Hrest as (Hd' & _ & _ & _ & Hall & _).
    rewrite Hd in Hd'. injection Hd' as <-.
    assert (Hem : emitted mode dictionary R (SayAutoCorrected word corrected) ∨
                  emitted mode dictionary R (SayCorrected word corrected)).
    { destruct Hin as [Hin|Hin];
        (eapply Forall_forall in Hall; [|exact Hin]);
        destruct Hall as [|[|Hem]]; try done; [by left|by right]. }
    destruct Hem as [Hem|Hem]; inversion Hem as
      [| | |w b sg _ Ha| |w c sg i sgn Ha Hs|w c sg sel n ch Ha _ _ _ Hs| | | |];
      subst; apply autocorrect_words_in_dictionary in Ha as [Hbest Hsugg].
    + by apply Hbest.
    + apply Hsugg. by eapply list_elem_of_lookup_2.
Qed.

Lemma X21_corrections_are_dictionary_words_witness :
  ∃ v rest events,
    main {[ "wordlist" := ["Hello"; "help"]; "keymap.conf" := ["o:i"] ]}
      ["y"; "hello"; "helo"; "2"; "exit"] = (v, rest, events) ∧
    ∀ word corrected,
      SayAutoCorrected word corrected ∈ events ∨
      SayCorrected word corrected ∈ events →
      corrected ∈ ["hello"; "help"].
Proof.
  apply (X21_corrections_are_dictionary_words
           {[ "wordlist" := ["Hello"; "help"]; "keymap.conf" := ["o:i"] ]}
           ["y"; "hello"; "helo"; "2"; "exit"] ["hello"; "help"]).
  by vm_compute.
Defined.

(** ** X22: how main returns *)



(** The four ways, on the code. *)
Example main_ends :
  (main {[ "wordlist" := ["hello"; "help"] ]} ["y"]).1 = (inr (), ["y"]) ∧
  (main {[ "wordlist" := ["hello"; "help"]; "keymap.conf" := ["o:i"] ]}
     ["y"; " Quit"; "more"]).1 = (inr (), ["more"]) ∧
  (main {[ "wordlist" := ["hello"; "help"]; "keymap.conf" := ["o:i"] ]}
     ["y"; "helo"]).1 = (inl EOFError, []) ∧
  (main {[ "wordlist" := ["hello"; "help"]; "keymap.conf" := ["o:i"] ]}
     long_selection_input).1 = (inl ValueError, ["exit"]).
Proof. repeat split; by vm_compute. Qed.

(** * The rounding of the ratio

    The table holds multiples of 1/2, on which ints and floats are exact;
    the ratio [1 - dist / max_len] is rounded twice.  What is proved of the
    exact ratio by order alone holds of the rounded one, for every rounding
    that is monotone and leaves 0 and 1 unchanged. *)

Lemma subst_cost_le_empty c1 c2 R : subst_cost c1 c2 R <= subst_cost c1 c2 ∅.
Proof.
  unfold subst_cost. case_decide; [lra|].
  replace (are_keys_nearby c1 c2 ∅) with false by done.
  destruct (are_keys_nearby c1 c2 R); lra.
Qed.

Lemma round_down_mono n x y : x <= y → round_down n x <= round_down n y.
Proof.
  intros Hle. unfold round_down.
  assert (Hf : (Qfloor (x * inject_Z (Z.pos n))
                ≤ Qfloor (y * inject_Z (Z.pos n)))%Z).
  { apply Qfloor_resp_le. apply Qmult_le_compat_r; [done|]. by unfold Qle. }
  unfold Qle. cbn. by apply Z.mul_le_mono_nonneg_r.
Qed.

Section Rounding.
Context (fl : Q → Q).
Context (fl_mono : ∀ x y, x <= y → fl x <= fl y).
Context (fl_0 : fl 0 == 0) (fl_1 : fl 1 == 1).

Lemma rounded_ratio_bounds dist len1 len2 :
  0 <= dist → dist <= Py.of_nat (Nat.max len1 len2) →
  0 <= rounded_ratio fl dist len1 len2 <= 1.
Proof.
  intros H0 Hmax. unfold rounded_ratio.
  pose proof (max_len_pos len1 len2) as Hpos.
  pose proof (max_len_ge len1 len2) as Hge.
  name_max_len m.
  assert (0 <= dist / m) by (apply Qle_shift_div_l; [assumption|lra]).
  assert (dist / m <= 1) by (apply Qle_shift_div_r; [assumption|lra]).
  pose proof (fl_mono 0 (dist / m) ltac:(assumption)).
  pose proof (fl_mono (dist / m) 1 ltac:(assumption)).
  pose proof (fl_mono 0 (1 - fl (dist / m)) ltac:(lra)).
  pose proof (fl_mono (1 - fl (dist / m)) 1 ltac:(lra)).
  lra.
Qed.

Lemma rounded_ratio_mono dist dist' len1 len2 :
  dist' <= dist →
  rounded_ratio fl dist len1 len2 <= rounded_ratio fl dist' len1 len2.
Proof.
  intros Hle. unfold rounded_ratio. pose proof (max_len_pos len1 len2) as Hpos.
  name_max_len m.
  assert (dist' / m <= dist / m).
  { unfold Qdiv. apply Qmult_le_compat_r; [assumption|].
    apply Qinv_le_0_compat. lra. }
  pose proof (fl_mono (dist' / m) (dist / m) ltac:(assumption)).
  apply fl_mono. lra.
Qed.

Lemma rounded_ratio_zero dist len1 len2 :
  dist == 0 → rounded_ratio fl dist len1 len2 == 1.
Proof.
  intros Hd. unfold rounded_ratio. pose proof (max_len_pos len1 len2) as Hpos.
  name_max_len m.
  assert (Hq : dist / m == 0) by (rewrite Hd; field; lra).
  pose proof (fl_mono 0 (dist / m) ltac:(lra)).
  pose proof (fl_mono (dist / m) 0 ltac:(lra)).
  pose proof (fl_mono 1 (1 - fl (dist / m)) ltac:(lra)).
  pose proof (fl_mono (1 - fl (dist / m)) 1 ltac:(lra)).
  lra.
Qed.
End Rounding.

(** ** X23: bounds and order under rounding *)

(** X23: let the quotient and the difference of [1 - dist / max_len] be
    rounded by a monotone rounding that leaves 0 and 1 unchanged, as the
    rounding to the nearest float does.  Then the ratio computed from the
    distance of the table is within [0, 1], it is at least the ratio
    computed from the distance under the empty keymap, and it is 1 for
    identical strings. *)
Theorem X23_rounded_ratio_bounds_and_order (fl : Q → Q) word1 word2 R :
  (∀ x y, x <= y → fl x <= fl y) → fl 0 == 0 → fl 1 == 1 →
  ∃ dp0 d0 dp d,
    fill_table word1 word2 ∅ = Some dp0 ∧
    get2 dp0 (String.length word1) (String.length word2) = Some d0 ∧
    fill_table word1 word2 R = Some dp ∧
    get2 dp (String.length word1) (String.length word2) = Some d ∧
    0 <= rounded_ratio fl d (String.length word1) (String.length word2) <= 1 ∧
    rounded_ratio fl d0 (String.length word1) (String.length word2) <=
      rounded_ratio fl d (String.length word1) (String.length word2) ∧
    (word1 = word2 →
     rounded_ratio fl d (String.length word1) (String.length word2) == 1).
Proof.
  intros Hmono H0 H1.
  destruct (fill_table_distance word1 word2 ∅) as (dp0 & Hdp0 & Hd0).
  destruct (fill_table_distance word1 word2 R) as (dp & Hdp & Hd).
  exists dp0. eexists. exists dp. eexists.
  split; [exact Hdp0|]. split; [exact Hd0|].
  split; [exact Hdp|]. split; [exact Hd|]. split; [|split].
  - apply rounded_ratio_bounds; [done..|apply edit_cost_nonneg|].
    pose proof (edit_cost_le_max R (reverse (list_ascii_of_string word1))
                  (reverse (list_ascii_of_string word2))) as Hmax.
    by rewrite !length_reverse, !length_chars in Hmax.
  - apply rounded_ratio_mono; [done|].
    apply edit_cost_mono. intros c1 c2. apply subst_cost_le_empty.
  - intros <-. apply rounded_ratio_zero; [done..|]. apply edit_cost_refl.
Qed.

Lemma X23_rounded_ratio_bounds_and_order_witness :
  ∃ dp0 d0 dp d,
    fill_table "hollo" "hillo" ∅ = Some dp0 ∧ get2 dp0 5 5 = Some d0 ∧
    fill_table "hollo" "hillo" {[ "o" := ["i"] ]} = Some dp ∧
    get2 dp 5 5 = Some d ∧
    0 <= rounded_ratio (round_down 1024) d 5 5 <= 1 ∧
    rounded_ratio (round_down 1024) d0 5 5 <=
      rounded_ratio (round_down 1024) d 5 5 ∧
    ("hollo" = "hillo" → rounded_ratio (round_down 1024) d 5 5 == 1).
Proof.
  apply (X23_rounded_ratio_bounds_and_order (round_down 1024)
           "hollo" "hillo" {[ "o" := ["i"] ]}).
  - apply round_down_mono.
  - by vm_compute.
  - by vm_compute.
Defined.

(** The rounding at work: with three binary digits the ratios 0.8 and 0.9
    of "hollo" and "hillo" become 7/8 and 1; the order is kept, the values
    are not. *)
Example rounded_hollo_hillo :
  rounded_ratio (round_down 8) 1 5 5 == 7 # 8 ∧
  rounded_ratio (round_down 8) (1 # 2) 5 5 == 1.
Proof. split; by vm_compute. Qed.
